(** * aligot: dependency resolution, ordering, fingerprints and build loop

    A shallow embedding of the Go program [aligot] (package [main]) and the
    properties of its resolution loop, its two topological sorters, its
    fingerprint pass, its store-path pass and its build loop.

    Go strings are byte sequences: they are [string] here (a list of
    [ascii], one per byte).  A Go [map[string]*Spec] is a [gmap string Spec];
    every key owns its own [Spec] object, so an update through the pointer is
    an insert at that key.  A run that ends in a runtime panic or in
    [msg.Fatalf] is an [Abort]. *)

From Stdlib Require Import ZArith Lia Ascii String.
From stdpp Require Import base option list sorting strings gmap fin_maps.

Local Open Scope Z_scope.
Local Open Scope string_scope.
Local Open Scope list_scope.

(** ** Outcomes *)

(** The ways a run of the program stops before its end. *)
Inductive failure : Type :=
| IndexOutOfRange (index len : nat)   (* runtime panic on [s[index]] *)
| NilPointer (key : string)           (* runtime panic: [m[key]] is nil and is dereferenced *)
| BadRegexp (pattern : string)        (* [regexp.MustCompile] panics *)
| NotImplemented                      (* [panic("not implemented")] *)
| CouldNotReadFile (pkg : string)     (* [msg.Fatalf("could not read file ...")] *)
| CouldNotUnmarshal (pkg : string)    (* [msg.Fatalf("could not unmarshal YAML ...")] *)
| TooManyAttempts (pkg : string).     (* [msg.Fatalf("too many attempts at building ...")] *)

Inductive result (A : Type) : Type :=
| Ok (a : A)
| Abort (f : failure).
Arguments Ok {A} a.
Arguments Abort {A} f.

#[global] Instance result_bind : MBind result :=
  fun A B (k : A -> result B) (r : result A) =>
    match r with
    | Ok a => k a
    | Abort f => Abort f
    end.

Definition is_Ok {A : Type} (r : result A) : Prop := exists a, r = Ok a.

(** ** The Go library functions the program calls *)

(** *** [sort.Strings]: ascending byte-wise order *)

Definition string_le (s1 s2 : string) : Prop := String.leb s1 s2 = true.

#[global] Instance string_le_dec : RelDecision string_le.
Proof. intros s1 s2. unfold string_le. apply _. Defined.

Definition sort_Strings (keys : list string) : list string :=
  merge_sort string_le keys.

(** *** [strings.Index], [strings.SplitN], [strings.Replace] *)

Definition strings_Index (s substr : string) : Z :=
  match String.index 0 substr s with
  | Some i => Z.of_nat i
  | None => -1
  end.

(** [strings_cut k s sep]: cut [s] at the first [k] occurrences of [sep]; the
    last element is the unsplit remainder. *)
Fixpoint strings_cut (k : nat) (s sep : string) : list string :=
  match k with
  | O => [s]
  | S k' =>
      match String.index 0 sep s with
      | None => [s]
      | Some m =>
          String.substring 0 m s
            :: strings_cut k'
                 (String.substring (m + String.length sep)%nat
                    (String.length s - (m + String.length sep))%nat s)
                 sep
      end
  end.

(** [strings.SplitN(s, sep, n)] for a non-empty [sep] (the program passes
    [":"]): [n = 0] gives no element, [n > 0] at most [n] elements, [n < 0]
    all of them. *)
Definition strings_SplitN (s sep : string) (n : Z) : list string :=
  if (n =? 0)%Z then []
  else if (n <? 0)%Z then strings_cut (String.length s) s sep
  else strings_cut (Z.to_nat (n - 1)) s sep.

(** [strings.Replace(s, old, new, -1)] where [old] and [new] are one byte
    each (the program passes ["/"] and ["_"]). *)
Fixpoint strings_Replace1 (s : string) (old new : ascii) : string :=
  match s with
  | EmptyString => EmptyString
  | String c s' =>
      String (if Ascii.eqb c old then new else c) (strings_Replace1 s' old new)
  end.

(** *** [crypto/sha1] and [encoding/hex] *)

Definition w32 (x : Z) : Z := x mod 2 ^ 32.

Definition rotl (n x : Z) : Z :=
  Z.lor (w32 (Z.shiftl x n)) (Z.shiftr x (32 - n)).

Definition bytes_of_string (s : string) : list Z :=
  map (fun c => Z.of_N (N_of_ascii c)) (list_ascii_of_string s).

(** Big-endian bytes of a 64-bit and of a 32-bit word. *)
Definition be64 (x : Z) : list Z :=
  map (fun i => Z.land (Z.shiftr x (8 * i)) 255) [7; 6; 5; 4; 3; 2; 1; 0].

Definition be32 (x : Z) : list Z :=
  map (fun i => Z.land (Z.shiftr x (8 * i)) 255) [3; 2; 1; 0].

Definition sha1_pad (msg : list Z) : list Z :=
  let len := Z.of_nat (length msg) in
  msg ++ [128] ++ repeat 0 (Z.to_nat ((55 - len) mod 64)) ++ be64 (8 * len).

Fixpoint words_of_bytes (fuel : nat) (bs : list Z) : list Z :=
  match fuel, bs with
  | S fuel', b0 :: b1 :: b2 :: b3 :: rest =>
      (Z.shiftl b0 24 + Z.shiftl b1 16 + Z.shiftl b2 8 + b3)
        :: words_of_bytes fuel' rest
  | _, _ => []
  end.

Record sha1_state : Type := mkState { h0 : Z; h1 : Z; h2 : Z; h3 : Z; h4 : Z }.

Definition sha1_init : sha1_state :=
  mkState 0x67452301 0xEFCDAB89 0x98BADCFE 0x10325476 0xC3D2E1F0.

Definition sha1_f (t : nat) (b c d : Z) : Z :=
  if (t <? 20)%nat then Z.lor (Z.land b c) (Z.land (Z.lxor b 0xFFFFFFFF) d)
  else if (t <? 40)%nat then Z.lxor (Z.lxor b c) d
  else if (t <? 60)%nat then Z.lor (Z.lor (Z.land b c) (Z.land b d)) (Z.land c d)
  else Z.lxor (Z.lxor b c) d.

Definition sha1_k (t : nat) : Z :=
  if (t <? 20)%nat then 0x5A827999
  else if (t <? 40)%nat then 0x6ED9EBA1
  else if (t <? 60)%nat then 0x8F1BBCDC
  else 0xCA62C1D6.

(** [n] rounds from round [t]; [ws] is the window [W(t) .. W(t+15)] of the
    message schedule. *)
Fixpoint sha1_rounds (n t : nat) (ws : list Z) (st : sha1_state) : sha1_state :=
  match n with
  | O => st
  | S n' =>
      let w := nth 0 ws 0 in
      let wnew :=
        rotl 1 (Z.lxor (Z.lxor (Z.lxor (nth 13 ws 0) (nth 8 ws 0)) (nth 2 ws 0)) w) in
      let '(mkState a b c d e) := st in
      let temp := w32 (rotl 5 a + sha1_f t b c d + e + sha1_k t + w) in
      sha1_rounds n' (S t) (tl ws ++ [wnew]) (mkState temp a (rotl 30 b) c d)
  end.

Definition sha1_block (st : sha1_state) (ws : list Z) : sha1_state :=
  let st' := sha1_rounds 80 0 ws st in
  mkState (w32 (h0 st + h0 st')) (w32 (h1 st + h1 st')) (w32 (h2 st + h2 st'))
          (w32 (h3 st + h3 st')) (w32 (h4 st + h4 st')).

Fixpoint sha1_blocks (fuel : nat) (ws : list Z) (st : sha1_state) : sha1_state :=
  match fuel, ws with
  | S fuel', _ :: _ => sha1_blocks fuel' (drop 16 ws) (sha1_block st (take 16 ws))
  | _, _ => st
  end.

(** The 20 bytes of [sha1.New(); Write(msg); Sum(nil)]. *)
Definition sha1_Sum (msg : list Z) : list Z :=
  let bs := sha1_pad msg in
  let ws := words_of_bytes (length bs) bs in
  let st := sha1_blocks (length ws) ws sha1_init in
  be32 (h0 st) ++ be32 (h1 st) ++ be32 (h2 st) ++ be32 (h3 st) ++ be32 (h4 st).

Definition hex_digit (d : Z) : ascii :=
  ascii_of_N (Z.to_N (if (d <? 10)%Z then 48 + d else 87 + d)).

Fixpoint hex_EncodeToString (bs : list Z) : string :=
  match bs with
  | [] => EmptyString
  | b :: rest =>
      String (hex_digit (Z.shiftr b 4))
        (String (hex_digit (Z.land b 15)) (hex_EncodeToString rest))
  end.

(** *** [regexp] *)

(** The regular-expression library is outside the program: its compiled
    form and its two operations are parameters.  [regexp_MustCompile pat] is
    [None] when the pattern does not compile ([MustCompile] panics then). *)
Class RegexpLib : Type := {
  Regexp : Type;
  regexp_MustCompile : string -> option Regexp;
  MatchString : Regexp -> string -> bool
}.

(** *** [filepath.Join] and [filepath.Clean] (Unix separator) *)

(** The elements of a path between its separators. *)
Fixpoint path_elems (cur : string) (path : string) : list string :=
  match path with
  | EmptyString => [cur]
  | String c rest =>
      if Ascii.eqb c "/" then cur :: path_elems EmptyString rest
      else path_elems (cur +:+ String c EmptyString) rest
  end.

Definition clean_step (rooted : bool) (out : list string) (elem : string)
  : list string :=
  if decide (elem = "" \/ elem = ".") then out
  else if decide (elem = "..") then
    match last out with
    | Some e => if decide (e = "..") then out ++ [".."] else removelast out
    | None => if rooted then out else out ++ [".."]
    end
  else out ++ [elem].

Definition filepath_Clean (path : string) : string :=
  if decide (path = "") then "."
  else
    let rooted := String.prefix "/" path in
    let out := foldl (clean_step rooted) [] (path_elems EmptyString path) in
    if rooted then "/" +:+ String.concat "/" out
    else if decide (out = []) then "." else String.concat "/" out.

Fixpoint filepath_Join (elem : list string) : string :=
  match elem with
  | [] => ""
  | e :: rest =>
      if decide (e = "") then filepath_Join rest
      else filepath_Clean (String.concat "/" elem)
  end.

(** ** The data of the program *)

Record Config : Type := {
  action : string;
  pkgs : list string;
  cfgdir : string;
  devel : list string;
  docker : string;
  wdir : string;
  arch : string;
  env : list string;
  volumes : list string;
  njobs : Z;
  refsrc : string;
  remoteStore : string;
  writeStore : string;
  disable : gset string;
  defaults : string;
  debug : bool
}.

Record Tar : Type := {
  storePath : string;
  linksPath : string;
  hashDir : string;
  linkDir : string
}.

Record Spec : Type := {
  Package : string;
  Version : string;
  Requires : list string;
  BuildRequires : list string;
  RuntimeRequires : list string;
  Env : gmap string string;
  Source : string;
  CommitHash : string;
  WriteRepo : string;
  Tag : string;
  Recipe : string;
  IncrementalRecipe : string;
  Hash : string;
  Revision : string;
  tar : Tar
}.

(** The zero value of [Spec]. *)
Definition zeroSpec : Spec :=
  {| Package := ""; Version := ""; Requires := []; BuildRequires := [];
     RuntimeRequires := []; Env := ∅; Source := ""; CommitHash := "";
     WriteRepo := ""; Tag := ""; Recipe := ""; IncrementalRecipe := "";
     Hash := ""; Revision := "";
     tar := {| storePath := ""; linksPath := ""; hashDir := ""; linkDir := "" |} |}.

Definition set_CommitHash (v : string) (s : Spec) : Spec :=
  {| Package := Package s; Version := Version s; Requires := Requires s;
     BuildRequires := BuildRequires s; RuntimeRequires := RuntimeRequires s;
     Env := Env s; Source := Source s; CommitHash := v;
     WriteRepo := WriteRepo s; Tag := Tag s; Recipe := Recipe s;
     IncrementalRecipe := IncrementalRecipe s; Hash := Hash s;
     Revision := Revision s; tar := tar s |}.

Definition set_Hash (v : string) (s : Spec) : Spec :=
  {| Package := Package s; Version := Version s; Requires := Requires s;
     BuildRequires := BuildRequires s; RuntimeRequires := RuntimeRequires s;
     Env := Env s; Source := Source s; CommitHash := CommitHash s;
     WriteRepo := WriteRepo s; Tag := Tag s; Recipe := Recipe s;
     IncrementalRecipe := IncrementalRecipe s; Hash := v;
     Revision := Revision s; tar := tar s |}.

Definition set_Revision (v : string) (s : Spec) : Spec :=
  {| Package := Package s; Version := Version s; Requires := Requires s;
     BuildRequires := BuildRequires s; RuntimeRequires := RuntimeRequires s;
     Env := Env s; Source := Source s; CommitHash := CommitHash s;
     WriteRepo := WriteRepo s; Tag := Tag s; Recipe := Recipe s;
     IncrementalRecipe := IncrementalRecipe s; Hash := Hash s;
     Revision := v; tar := tar s |}.

Definition set_tar (v : Tar) (s : Spec) : Spec :=
  {| Package := Package s; Version := Version s; Requires := Requires s;
     BuildRequires := BuildRequires s; RuntimeRequires := RuntimeRequires s;
     Env := Env s; Source := Source s; CommitHash := CommitHash s;
     WriteRepo := WriteRepo s; Tag := Tag s; Recipe := Recipe s;
     IncrementalRecipe := IncrementalRecipe s; Hash := Hash s;
     Revision := Revision s; tar := v |}.

(** [s[i]] on a slice: a runtime panic out of range. *)
Definition at_index {A : Type} (s : list A) (i : nat) : result A :=
  match s !! i with
  | Some x => Ok x
  | None => Abort (IndexOutOfRange i (length s))
  end.

Definition MustCompile `{RegexpLib} (pat : string) : result Regexp :=
  match regexp_MustCompile pat with
  | Some r => Ok r
  | None => Abort (BadRegexp pat)
  end.

(** ** [filterByArch] (the same text in both versions of the program) *)

Section Resolution.
Context `{RegexpLib}.

(** The body of the [for _, v := range reqs] loop; [o] is the output
    slice so far. *)
Fixpoint filterByArch_loop (arch : string) (reqs : list string)
    (o : list string) : result (list string) :=
  match reqs with
  | [] => Ok o
  | v :: rest =>
      rm ← (if (strings_Index v ":" >? -1)%Z then
              let s := strings_SplitN v ":" 1 in
              req ← at_index s 0;
              pat ← at_index s 1;
              matcher ← MustCompile pat;
              Ok (req, matcher)
            else
              matcher ← MustCompile ".*";
              Ok (v, matcher));
      filterByArch_loop arch rest
        (if MatchString rm.2 arch then o ++ [rm.1] else o)
  end.

Definition filterByArch (arch : string) (reqs : list string)
  : result (list string) :=
  filterByArch_loop arch reqs [].

(** ** The resolution loop of [main] *)

(** The closure [fn]: the architecture filter, then the names of the
    disable set are left out. *)
Definition fn (cfg : Config) (args : list string) : result (list string) :=
  archs ← filterByArch (arch cfg) args;
  Ok (filter (fun v => v ∉ disable cfg) archs).

Definition defaultsName (cfg : Config) : string := "defaults-" +:+ defaults cfg.

(** From the unmarshalled header [spec] and the recipe text to the [Spec]
    stored in [b.specs] (the statements after the disable test). *)
Definition resolveSpec (cfg : Config) (spec : Spec) (recipe : string)
  : result Spec :=
  requires ← fn cfg (Requires spec);
  buildRequires ← fn cfg (BuildRequires spec);
  let buildRequires :=
    if decide (Package spec ≠ defaultsName cfg)
    then buildRequires ++ [defaultsName cfg]
    else buildRequires in
  let runtimeRequires := requires in
  let requires := ([] ++ runtimeRequires) ++ buildRequires in
  let tag := if decide (Tag spec = "") then Version spec else Tag spec in
  let version := strings_Replace1 (Version spec) "/" "_" in
  Ok {| Package := Package spec; Version := version; Requires := requires;
        BuildRequires := buildRequires; RuntimeRequires := runtimeRequires;
        Env := Env spec; Source := Source spec; CommitHash := CommitHash spec;
        WriteRepo := WriteRepo spec; Tag := tag; Recipe := recipe;
        IncrementalRecipe := IncrementalRecipe spec; Hash := Hash spec;
        Revision := Revision spec; tar := tar spec |}.

(** The recipe source and the YAML decoder are outside the program.
    [ReadFile pkg] is the content of the file
    [filepath.Join(cfg.cfgdir, strings.ToLower(pkg)) + ".sh"], [None] when
    it cannot be read; [yaml_Unmarshal hdr] is the [Spec] decoded from the
    header, [None] on a decoding error. *)
Variable ReadFile : string -> option string.
Variable yaml_Unmarshal : string -> option Spec.

(** One turn of the loop for a name that is not resolved yet: [Ok None]
    is the [continue] of a disabled package. *)
Definition loadSpec (cfg : Config) (pkg : string) : result (option Spec) :=
  match ReadFile pkg with
  | None => Abort (CouldNotReadFile pkg)
  | Some buf =>
      let tokens := strings_SplitN buf "---" (-1) in
      hdr ← at_index tokens 0;
      recipe ← at_index tokens 1;
      match yaml_Unmarshal hdr with
      | None => Abort (CouldNotUnmarshal pkg)
      | Some spec =>
          if decide (Package spec ∈ disable cfg) then Ok None
          else spec' ← resolveSpec cfg spec recipe; Ok (Some spec')
      end
  end.

(** [for len(pkgs) > 0 { ... }]: the queue can grow for ever on an
    unbounded recipe source, so the loop runs on fuel, one unit per turn;
    [None] is "fuel exhausted". *)
Fixpoint resolve (cfg : Config) (fuel : nat) (pkgs : list string)
    (specs : gmap string Spec) : option (result (gmap string Spec)) :=
  match fuel with
  | O => None
  | S fuel' =>
      match pkgs with
      | [] => Some (Ok specs)
      | pkg :: pkgs' =>
          match specs !! pkg with
          | Some _ => resolve cfg fuel' pkgs' specs
          | None =>
              match loadSpec cfg pkg with
              | Abort f => Some (Abort f)
              | Ok None => resolve cfg fuel' pkgs' specs
              | Ok (Some spec) =>
                  resolve cfg fuel' (pkgs' ++ Requires spec)
                    (<[Package spec := spec]> specs)
              end
          end
      end
  end.
End Resolution.

(** ** [topoSort]: depth-first post-order over the requirement edges *)

(** The variables [seen] and [order] captured by the closure [visitAll].
    [seen] only ever maps names to [true]: it is a set. *)
Record visit : Type := { seen : gset string; order : list string }.

(** [visitAll]: [fuel] bounds the depth of the recursion (one unit per
    nested call); [None] is "fuel exhausted".  [m[item]] is a nil pointer when
    [item] is not a key, and [m[item].Requires] panics. *)
Fixpoint visitAll (m : gmap string Spec) (fuel : nat)
  : list string -> visit -> option (result visit) :=
  fix loop (items : list string) (st : visit) {struct items} :=
    match items with
    | [] => Some (Ok st)
    | item :: rest =>
        if decide (item ∈ seen st) then loop rest st
        else
          match m !! item with
          | None => Some (Abort (NilPointer item))
          | Some spec =>
              match fuel with
              | O => None
              | S fuel' =>
                  match
                    visitAll m fuel' (Requires spec)
                      {| seen := {[item]} ∪ seen st; order := order st |}
                  with
                  | Some (Ok st') =>
                      loop rest
                        {| seen := seen st'; order := order st' ++ [item] |}
                  | other => other
                  end
              end
          end
    end.

(** [topoSort] where [keys] is the sequence of keys that
    [for key := range m] delivers, in the order of that run. *)
Definition topoSortWith (keys : list string) (m : gmap string Spec)
  : option (result (list string)) :=
  match visitAll m (size m) (sort_Strings keys) {| seen := ∅; order := [] |} with
  | Some (Ok st) => Some (Ok (order st))
  | Some (Abort f) => Some (Abort f)
  | None => None
  end.

Definition topoSort (m : gmap string Spec) : option (result (list string)) :=
  topoSortWith (elements (dom m)) m.

(** ** The passes of [main] over the build order *)

(** [for _, p := range order { spec := specs[p]; ... }] where the body
    updates the [Spec] behind the pointer; a name that is not a key gives a
    nil pointer. *)
Fixpoint forOrder (body : Spec -> result Spec) (order : list string)
    (specs : gmap string Spec) : result (gmap string Spec) :=
  match order with
  | [] => Ok specs
  | p :: rest =>
      match specs !! p with
      | None => Abort (NilPointer p)
      | Some spec =>
          spec' ← body spec;
          forOrder body rest (<[p := spec']> specs)
      end
  end.

(** "resolve the tag to the actual commit ref" *)
Definition resolveCommit (spec : Spec) : result Spec :=
  let spec := set_CommitHash "0" spec in
  Ok (if decide (Source spec ≠ "") then set_CommitHash (Tag spec) spec else spec).

(** The closure [fct] of the hash loop. *)
Definition fct (s : string) : list Z :=
  bytes_of_string (if decide (s = "") then "none" else s).

(** The bytes written to the digest, and the digest in hexadecimal. *)
Definition hashInput (spec : Spec) : list Z :=
  fct (Recipe spec) ++ fct (Version spec) ++ fct (Package spec)
    ++ fct (CommitHash spec).

Definition fingerprint (spec : Spec) : string :=
  hex_EncodeToString (sha1_Sum (hashInput spec)).

Definition calcHash (spec : Spec) : result Spec :=
  Ok (set_Hash (fingerprint spec) spec).

(** [spec.Hash[:2]]: a runtime panic on a string shorter than two bytes. *)
Definition hashPrefix (h : string) : result string :=
  if (String.length h <? 2)%nat
  then Abort (IndexOutOfRange 2 (String.length h))
  else Ok (String.substring 0 2 h).

(** The store-path loop: [linkDir] is assigned twice and [linksPath] never. *)
Definition assignPaths (cfg : Config) (spec : Spec) : result Spec :=
  prefix ← hashPrefix (Hash spec);
  let join := filepath_Join in
  let t := tar spec in
  let t := {| storePath := join ["TARS"; arch cfg; "store"; prefix; Hash spec];
              linksPath := linksPath t; hashDir := hashDir t;
              linkDir := linkDir t |} in
  let t := {| storePath := storePath t; linksPath := linksPath t;
              hashDir := hashDir t;
              linkDir := join ["TARS"; arch cfg; Package spec] |} in
  let t := {| storePath := storePath t; linksPath := linksPath t;
              hashDir := join [wdir cfg; "TARS"; arch cfg; "store"; prefix; arch cfg];
              linkDir := linkDir t |} in
  let t := {| storePath := storePath t; linksPath := linksPath t;
              hashDir := hashDir t;
              linkDir := join [wdir cfg; "TARS"; arch cfg; Package spec] |} in
  Ok (set_tar t spec).

(** The three passes, in the order of [main]. *)
Definition annotate (cfg : Config) (order : list string)
    (specs : gmap string Spec) : result (gmap string Spec) :=
  specs ← forOrder resolveCommit order specs;
  specs ← forOrder calcHash order specs;
  forOrder (assignPaths cfg) order specs.

(** ** The build loop of [main] *)

(** [niter] and the specs; [visited] records the names popped from the
    queue, one per turn of the loop (the [">>> ..."] lines of the log). *)
Record build_state : Type := {
  niter : gmap string Z;
  bspecs : gmap string Spec;
  visited : list string
}.

Definition attempts (n : gmap string Z) (p : string) : Z := default 0 (n !! p).

(** The ceiling on the attempts at one package. *)
Definition ceiling : Z := 20.

(** [for len(build) > 0 { p := build[0]; build = build[1:]; ... }];
    [flagRemote] is the value of [-remote-store]. *)
Fixpoint buildLoop (flagRemote : string) (build : list string)
    (st : build_state) : result build_state :=
  match build with
  | [] => Ok st
  | p :: build' =>
      let niter' := <[p := attempts (niter st) p + 1]> (niter st) in
      if (attempts niter' p >? ceiling)%Z then Abort (TooManyAttempts p)
      else
        match bspecs st !! p with
        | None => Abort (NilPointer p)
        | Some spec =>
            let specs' := <[p := set_Revision "" spec]> (bspecs st) in
            if decide (flagRemote ≠ "") then Abort NotImplemented
            else
              buildLoop flagRemote build'
                {| niter := niter'; bspecs := specs'; visited := visited st ++ [p] |}
        end
  end.

Definition startBuild (specs : gmap string Spec) : build_state :=
  {| niter := ∅; bspecs := specs; visited := [] |}.

(** ** [toposort]: the sorter of the earlier version of the program *)

(** There the specs are values ([map[string]Spec]); a missing key reads as
    the zero [Spec].  [iter] is the sequence of keys the first
    [range specs] delivers and [ranged] the order in which a
    [range withPred] delivers the elements of that set. *)

Section Toposort.
Variable iter : list string.
Variable ranged : list string -> list string.

Definition edge : Type := string * string.

(** [L] and [edges] after the first loop. *)
Fixpoint collect (specs : gmap string Spec) (keys : list string)
    (L : list Spec) (edges : list edge) : list Spec * list edge :=
  match keys with
  | [] => (L, edges)
  | k :: rest =>
      let spec := default zeroSpec (specs !! k) in
      let L := if decide (length (Requires spec) = 0%nat) then L ++ [spec] else L in
      let edges := edges ++ map (fun d => (Package spec, d)) (Requires spec) in
      collect specs rest L edges
  end.

(** The distinct elements of [l], in order of first occurrence. *)
Fixpoint distinct (l : list string) : list string :=
  match l with
  | [] => []
  | x :: rest => x :: filter (fun y => y ≠ x) (distinct rest)
  end.

(** [for len(L) > 0 { ... }], one unit of fuel per turn. *)
Fixpoint drain (specs : gmap string Spec) (fuel : nat) (L S : list Spec)
    (edges : list edge) : option (list Spec) :=
  match fuel with
  | O => None
  | S fuel' =>
      match L with
      | [] => Some S
      | spec :: L =>
          let S := S ++ [spec] in
          let next := map fst (filter (fun e => e.2 = Package spec) edges) in
          (* [edges] is made empty, then the loop that should keep the
             other edges ranges over that empty slice *)
          let edges := @nil edge in
          let edges := edges ++ filter (fun e => e.2 ≠ Package spec) edges in
          let hasPred := filter (fun m => m ∈ map fst edges) next in
          let withPred := distinct (filter (fun v => v ∉ hasPred) next) in
          let L := L ++ map (fun m => default zeroSpec (specs !! m)) (ranged withPred) in
          drain specs fuel' L S edges
      end
  end.

Definition toposort (specs : gmap string Spec) : option (list string) :=
  let '(L, edges) := collect specs iter [] [] in
  S ← drain specs (2 * size specs + 1) L [] edges;
  Some (map Package S).
End Toposort.

(** * Specification vocabulary *)

(** ** The requirement graph *)

(** [requires m a b]: [b] is in the [Requires] list of the spec at key [a]. *)
Definition requires (m : gmap string Spec) (a b : string) : Prop :=
  exists s, m !! a = Some s /\ b ∈ Requires s.

(** Every required name is a key. *)
Definition closed (m : gmap string Spec) : Prop :=
  forall a b, requires m a b -> b ∈ dom m.

(** Some package is reachable from itself through the edges. *)
Definition cyclic (m : gmap string Spec) : Prop :=
  exists a, tc (requires m) a a.

Definition acyclic (m : gmap string Spec) : Prop :=
  forall a, ~ tc (requires m) a a.

(** [a] occurs at a smaller index of [l] than [b]. *)
Definition before (l : list string) (a b : string) : Prop :=
  exists i j, l !! i = Some a /\ l !! j = Some b /\ (i < j)%nat.

(** Every package of [l] comes after all the names it requires. *)
Definition dependency_first (m : gmap string Spec) (l : list string) : Prop :=
  forall P r, P ∈ l -> requires m P r -> before l r P.

(** The invariant of the traversal: the seen names are keys, the names of
    the order are seen, and the order has no repetition. *)
Record visit_ok (m : gmap string Spec) (st : visit) : Prop := {
  seen_dom : seen st ⊆ dom m;
  order_seen : forall x, x ∈ order st -> x ∈ seen st;
  order_nodup : NoDup (order st)
}.

(** The names on the recursion stack: seen and not yet in the order. *)
Definition pending (st : visit) (x : string) : Prop :=
  x ∈ seen st /\ x ∉ order st.

(** What a call of [visitAll] that returns [st'] from [st] guarantees. *)
Record visit_post (m : gmap string Spec) (items : list string)
    (st st' : visit) : Prop := {
  post_ok : visit_ok m st';
  post_seen : seen st ⊆ seen st';
  post_order : exists new, order st' = order st ++ new;
  post_pending : forall x, pending st' x <-> pending st x;
  post_items : forall i, i ∈ items -> i ∈ seen st';
  post_first :
    acyclic m -> dependency_first m (order st) ->
    (forall g i, pending st g -> i ∈ items -> tc (requires m) g i) ->
    dependency_first m (order st')
}.

(** What the three passes leave at a package of the order. *)
Record annotated (cfg : Config) (s : Spec) : Prop := {
  ann_hash : Hash s = fingerprint s;
  ann_store :
    storePath (tar s)
    = filepath_Join ["TARS"; arch cfg; "store"; String.substring 0 2 (Hash s); Hash s];
  ann_link :
    linkDir (tar s) = filepath_Join [wdir cfg; "TARS"; arch cfg; Package s]
}.

(** ** Registries used as examples *)

Definition pkg (name recipe : string) (reqs : list string) : Spec :=
  {| Package := name; Version := ""; Requires := reqs; BuildRequires := [];
     RuntimeRequires := []; Env := ∅; Source := ""; CommitHash := "";
     WriteRepo := ""; Tag := ""; Recipe := recipe; IncrementalRecipe := "";
     Hash := ""; Revision := "";
     tar := {| storePath := ""; linksPath := ""; hashDir := ""; linkDir := "" |} |}.

(** Two packages that require each other. *)
Definition cycleAB : gmap string Spec :=
  <["A" := pkg "A" "" ["B"]]> (<["B" := pkg "B" "" ["A"]]> ∅).

(** [A] alone, [B] on [A], [C] on [A] and [B]. *)
Definition chainABC : gmap string Spec :=
  <["A" := pkg "A" "" []]>
    (<["B" := pkg "B" "" ["A"]]> (<["C" := pkg "C" "" ["A"; "B"]]> ∅)).

Definition first_byte (s : string) : nat :=
  match s with
  | EmptyString => 0
  | String c _ => nat_of_ascii c
  end.

(** [chainABC] where the recipe of [A] is [recipeA]. *)
Definition chainABC_recipe (recipeA : string) : gmap string Spec :=
  <["A" := pkg "A" recipeA []]>
    (<["B" := pkg "B" "make B" ["A"]]> (<["C" := pkg "C" "make C" ["A"; "B"]]> ∅)).

(** The defaults package and two packages that require nothing else: what
    the resolution loop stores for them. *)
Definition releaseAB : gmap string Spec :=
  <["defaults-release" := pkg "defaults-release" "" []]>
    (<["A" := pkg "A" "" ["defaults-release"]]>
       (<["B" := pkg "B" "" ["defaults-release"]]> ∅)).

(** A regular-expression library that compiles the pattern [".*"], which
    accepts every string, and no other pattern. *)
Definition dotStar : RegexpLib :=
  {| Regexp := unit;
     regexp_MustCompile := fun pat => if decide (pat = ".*") then Some () else None;
     MatchString := fun _ _ => true |}.

Definition exampleConfig (disabled : gset string) : Config :=
  {| action := "build"; pkgs := ["A"]; cfgdir := "alidist"; devel := [];
     docker := ""; wdir := "/home/alice/sw"; arch := "slc7_x86-64"; env := [];
     volumes := []; njobs := 1; refsrc := "sw/MIRROR"; remoteStore := "";
     writeStore := ""; disable := disabled; defaults := "release";
     debug := false |}.

(** A recipe source with the package [A], which lists [zlib] and the
    defaults package, and with these two. *)
Definition exampleFiles (name : string) : option string :=
  if decide (name = "A")
  then Some "package: A, requires: [zlib, defaults-release]---make A"
  else if decide (name = "zlib") then Some "package: zlib---make zlib"
  else if decide (name = "defaults-release")
  then Some "package: defaults-release---true"
  else None.

Definition exampleYaml (hdr : string) : option Spec :=
  if decide (hdr = "package: A, requires: [zlib, defaults-release]")
  then Some (pkg "A" "" ["zlib"; "defaults-release"])
  else if decide (hdr = "package: zlib") then Some (pkg "zlib" "" [])
  else if decide (hdr = "package: defaults-release")
  then Some (pkg "defaults-release" "" [])
  else None.

(** A header with a version that holds a slash and without tag, and the
    [Spec] that the resolution stores for it. *)
Definition rootHeader : Spec :=
  {| Package := "ROOT"; Version := "v5-34/30"; Requires := ["zlib"];
     BuildRequires := []; RuntimeRequires := []; Env := ∅;
     Source := "https://github.com/root-mirror/root"; CommitHash := "";
     WriteRepo := ""; Tag := ""; Recipe := ""; IncrementalRecipe := "";
     Hash := ""; Revision := "";
     tar := {| storePath := ""; linksPath := ""; hashDir := ""; linkDir := "" |} |}.

Definition rootResolved : Spec :=
  {| Package := "ROOT"; Version := "v5-34_30";
     Requires := ["zlib"; "defaults-release"];
     BuildRequires := ["defaults-release"]; RuntimeRequires := ["zlib"];
     Env := ∅; Source := "https://github.com/root-mirror/root"; CommitHash := "";
     WriteRepo := ""; Tag := "v5-34/30"; Recipe := "make ROOT";
     IncrementalRecipe := ""; Hash := ""; Revision := "";
     tar := {| storePath := ""; linksPath := ""; hashDir := ""; linkDir := "" |} |}.

(** ** Path elements *)

(** A path element that [filepath.Clean] keeps as it is: not empty, not [.]
    or [..], and without separator. *)
Definition no_slash (e : string) : Prop :=
  Forall (fun c => c ≠ "/"%char) (list_ascii_of_string e).

Definition plain_elem (e : string) : Prop :=
  e ≠ "" /\ e ≠ "." /\ e ≠ ".." /\ no_slash e.

(** The digits of [hex.EncodeToString]. *)
Definition hex_char (c : ascii) : Prop :=
  c ∈ list_ascii_of_string "0123456789abcdef".

(** ** The build queue *)

(** The number of times [p] occurs in the queue. *)
Definition occurrences (p : string) (build : list string) : Z :=
  Z.of_nat (length (filter (fun q => q = p) build)).

(** * Properties *)

(** ** The library functions on known values *)

Example sha1_abc :
  hex_EncodeToString (sha1_Sum (bytes_of_string "abc"))
  = "a9993e364706816aba3e25717850c26c9cd0d89d".
Proof. vm_compute. reflexivity. Qed.

Example sha1_empty :
  hex_EncodeToString (sha1_Sum (bytes_of_string ""))
  = "da39a3ee5e6b4b0d3255bfef95601890afd80709".
Proof. vm_compute. reflexivity. Qed.

Example sha1_two_blocks :
  hex_EncodeToString
    (sha1_Sum (bytes_of_string
       "abcdbcdecdefdefgefghfghighijhijkijkljklmklmnlmnomnopnopq"))
  = "84983e441c3bd26ebaae4aa1f95129e5e54670f1".
Proof. vm_compute. reflexivity. Qed.

Example SplitN_one : strings_SplitN "zlib:x86.*" ":" 1 = ["zlib:x86.*"].
Proof. reflexivity. Qed.

Example SplitN_two : strings_SplitN "zlib:x86.*:y" ":" 2 = ["zlib"; "x86.*:y"].
Proof. reflexivity. Qed.

Example SplitN_all : strings_SplitN "a:b:c" ":" (-1) = ["a"; "b"; "c"].
Proof. reflexivity. Qed.

Example Clean_dots : filepath_Clean "a//b/./c/../d/" = "a/b/d".
Proof. reflexivity. Qed.

Example Clean_rooted : filepath_Clean "/../a/../../b" = "/b".
Proof. reflexivity. Qed.

Example Clean_up : filepath_Clean "../../a/.." = "../..".
Proof. reflexivity. Qed.

Example Join_skips_empty : filepath_Join [""; "TARS"; ""; "store"] = "TARS/store".
Proof. reflexivity. Qed.

(** ** The order of [sort.Strings] *)

Lemma ascii_compare_refl (a : ascii) : Ascii.compare a a = Eq.
Proof. unfold Ascii.compare. apply N.compare_refl. Qed.

Lemma ascii_compare_lt_trans (a b c : ascii) :
  Ascii.compare a b = Lt -> Ascii.compare b c = Lt -> Ascii.compare a c = Lt.
Proof.
  unfold Ascii.compare. rewrite !N.compare_lt_iff. apply N.lt_trans.
Qed.

Lemma string_compare_lt_trans (s1 s2 s3 : string) :
  String.compare s1 s2 = Lt -> String.compare s2 s3 = Lt ->
  String.compare s1 s3 = Lt.
Proof.
  revert s2 s3.
  induction s1 as [|a s1 IH]; intros [|b s2] [|c s3]; simpl; try done.
  destruct (Ascii.compare a b) eqn:E1; try done;
    destruct (Ascii.compare b c) eqn:E2; try done; intros H1 H2.
  - apply Ascii.compare_eq_iff in E1, E2. subst.
    rewrite ascii_compare_refl. eauto.
  - apply Ascii.compare_eq_iff in E1. subst. by rewrite E2.
  - apply Ascii.compare_eq_iff in E2. subst. by rewrite E1.
  - by rewrite (ascii_compare_lt_trans a b c).
Qed.

#[global] Instance string_le_trans : Transitive string_le.
Proof.
  intros s1 s2 s3. unfold string_le, String.leb.
  destruct (String.compare s1 s2) eqn:E1; try done;
    destruct (String.compare s2 s3) eqn:E2; try done; intros _ _.
  - apply String.compare_eq_iff in E1. subst. by rewrite E2.
  - apply String.compare_eq_iff in E1. subst. by rewrite E2.
  - apply String.compare_eq_iff in E2. subst. by rewrite E1.
  - by rewrite (string_compare_lt_trans s1 s2 s3).
Qed.

#[global] Instance string_le_antisym : AntiSymm (=) string_le.
Proof. intros s1 s2. apply String.leb_antisym. Qed.

#[global] Instance string_le_total : Total string_le.
Proof. intros s1 s2. apply String.leb_total. Qed.

(** Sorting forgets the order in which the keys were delivered. *)
Lemma sort_Strings_perm (keys1 keys2 : list string) :
  keys1 ≡ₚ keys2 -> sort_Strings keys1 = sort_Strings keys2.
Proof.
  intros Hp. unfold sort_Strings.
  apply (Sorted_unique string_le).
  - apply Sorted_merge_sort, _.
  - apply Sorted_merge_sort, _.
  - by rewrite !merge_sort_Permutation.
Qed.

Lemma elem_of_sort_Strings (keys : list string) (k : string) :
  k ∈ sort_Strings keys <-> k ∈ keys.
Proof. unfold sort_Strings. by rewrite merge_sort_Permutation. Qed.

(** ** [filterByArch] *)

Lemma index_colon (name pat : string) :
  exists i, String.index 0 ":" (name +:+ ":" +:+ pat) = Some i.
Proof.
  induction name as [|c name [i IH]].
  - exists 0%nat. by destruct pat.
  - change (String c name +:+ ":" +:+ pat) with (String c (name +:+ ":" +:+ pat)).
    change (index 0 ":" (String c (name +:+ ":" +:+ pat))) with
      (if String.prefix ":" (String c (name +:+ ":" +:+ pat)) then Some 0%nat
       else match index 0 ":" (name +:+ ":" +:+ pat) with
            | Some n => Some (S n) | None => None end).
    rewrite IH. destruct (String.prefix _ _); by eexists.
Qed.

Lemma strings_Index_colon (name pat : string) :
  (strings_Index (name +:+ ":" +:+ pat) ":" >? -1)%Z = true.
Proof.
  unfold strings_Index. destruct (index_colon name pat) as [i ->].
  apply Z.gtb_lt. lia.
Qed.

Section FilterFacts.
Context `{RegexpLib}.

(** A token with a colon as the first one: [s := strings.SplitN(v, ":", 1)]
    has one element and [s[1]] is out of range. *)
Lemma filterByArch_loop_colon (arch v : string) (rest o : list string) :
  (strings_Index v ":" >? -1)%Z = true ->
  filterByArch_loop arch (v :: rest) o = Abort (IndexOutOfRange 1 1).
Proof. intros Hv. cbn. rewrite Hv. reflexivity. Qed.

Lemma filterByArch_loop_colon_aborts (arch : string) (reqs o : list string) :
  (exists v, v ∈ reqs /\ (strings_Index v ":" >? -1)%Z = true) ->
  exists f, filterByArch_loop arch reqs o = Abort f.
Proof.
  revert o. induction reqs as [|w reqs IH]; intros o [v [Hin Hv]].
  - by apply elem_of_nil in Hin.
  - destruct (strings_Index w ":" >? -1)%Z eqn:Hw.
    + rewrite filterByArch_loop_colon by done. by eexists.
    + apply elem_of_cons in Hin as [->|Hin]; [congruence|].
      cbn. rewrite Hw. unfold MustCompile.
      destruct (regexp_MustCompile ".*"); cbn; [|by eexists].
      apply IH. eauto.
Qed.

(** The plain tokens: all of them are returned, given that [".*"]
    compiles to a matcher that accepts the architecture. *)
Lemma filterByArch_loop_plain (arch : string) (reqs o : list string) (r : Regexp) :
  regexp_MustCompile ".*" = Some r -> MatchString r arch = true ->
  Forall (fun v => (strings_Index v ":" >? -1)%Z = false) reqs ->
  filterByArch_loop arch reqs o = Ok (o ++ reqs).
Proof.
  intros Hc Hm Hall. revert o.
  induction Hall as [|v reqs Hv _ IH]; intros o.
  - by rewrite app_nil_r.
  - cbn. rewrite Hv. unfold MustCompile. rewrite Hc. cbn. rewrite Hm.
    rewrite IH. by rewrite <- app_assoc.
Qed.

(** Whatever the filter returns is taken from the tokens. *)
Lemma filterByArch_loop_sub (arch : string) (reqs o o' : list string) :
  filterByArch_loop arch reqs o = Ok o' ->
  forall x, x ∈ o' -> x ∈ o \/ x ∈ reqs.
Proof.
  revert o. induction reqs as [|v reqs IH]; intros o Hr x Hx.
  - cbn in Hr. injection Hr as <-. by left.
  - cbn in Hr. destruct (strings_Index v ":" >? -1)%Z; [done|].
    unfold MustCompile in Hr.
    destruct (regexp_MustCompile ".*"); cbn in Hr; [|done].
    destruct (IH _ Hr x Hx) as [Ho|Hrest]; [|right; set_solver].
    destruct (MatchString _ _); [|by left].
    apply elem_of_app in Ho as [?|Hv]; [by left|right]. set_solver.
Qed.

(** ** The requirement lists of a resolved [Spec] *)

Lemma fn_not_disabled (cfg : Config) (args o : list string) (D : string) :
  fn cfg args = Ok o -> (D ∈ disable cfg) -> D ∉ o.
Proof.
  unfold fn. destruct (filterByArch _ _) as [archs|]; cbn; [|done].
  intros [= <-] HD Hin. apply list_elem_of_filter in Hin as [Hn _]. done.
Qed.

(** A disabled name other than the defaults package is in none of the
    three lists. *)
Lemma resolveSpec_drops_disabled (cfg : Config) (spec s : Spec)
    (recipe D : string) :
  resolveSpec cfg spec recipe = Ok s ->
  (D ∈ disable cfg) -> (D ≠ defaultsName cfg) ->
  (D ∉ Requires s) /\ (D ∉ BuildRequires s) /\ (D ∉ RuntimeRequires s).
Proof.
  unfold resolveSpec. intros Hr HD Hne.
  destruct (fn cfg (Requires spec)) as [req|] eqn:E1; cbn in Hr; [|done].
  destruct (fn cfg (BuildRequires spec)) as [breq|] eqn:E2; cbn in Hr; [|done].
  injection Hr as <-. cbn.
  pose proof (fn_not_disabled _ _ _ D E1 HD) as H1.
  pose proof (fn_not_disabled _ _ _ D E2 HD) as H2.
  assert (D ∉ (if decide (Package spec ≠ defaultsName cfg)
               then breq ++ [defaultsName cfg] else breq)) as H3.
  { case_decide; [|done]. set_solver. }
  set_solver.
Qed.

(** The defaults package is appended after the disable set was applied:
    it is a requirement of every other package, disabled or not. *)
Lemma resolveSpec_keeps_defaults (cfg : Config) (spec s : Spec) (recipe : string) :
  resolveSpec cfg spec recipe = Ok s ->
  (Package spec ≠ defaultsName cfg) ->
  defaultsName cfg ∈ Requires s /\ defaultsName cfg ∈ BuildRequires s.
Proof.
  unfold resolveSpec. intros Hr Hne.
  destruct (fn cfg (Requires spec)) as [req|]; cbn in Hr; [|done].
  destruct (fn cfg (BuildRequires spec)) as [breq|]; cbn in Hr; [|done].
  injection Hr as <-. cbn. rewrite decide_True by done. set_solver.
Qed.
End FilterFacts.

(** ** [strings.Replace(version, "/", "_", -1)] *)

Lemma Replace1_length (s : string) (old new : ascii) :
  String.length (strings_Replace1 s old new) = String.length s.
Proof. induction s; cbn; congruence. Qed.

Lemma Replace1_get (s : string) (old new : ascii) (i : nat) :
  String.get i (strings_Replace1 s old new)
  = (fun c => if Ascii.eqb c old then new else c) <$> String.get i s.
Proof.
  revert i. induction s as [|c s IH]; intros [|i]; cbn; auto.
Qed.

Lemma Replace1_gone (s : string) (old new : ascii) (i : nat) :
  old ≠ new -> String.get i (strings_Replace1 s old new) ≠ Some old.
Proof.
  intros Hne. rewrite Replace1_get.
  destruct (String.get i s) as [c|]; cbn; [|done].
  destruct (Ascii.eqb c old) eqn:E; [congruence|].
  apply Ascii.eqb_neq in E. congruence.
Qed.

(** ** [topoSort] *)

Lemma before_app_l (l l' : list string) (a b : string) :
  before l a b -> before (l ++ l') a b.
Proof.
  intros (i & j & Hi & Hj & Hlt). exists i, j.
  split_and!; [by apply lookup_app_l_Some..|done].
Qed.

Lemma before_snoc (l : list string) (a b : string) :
  a ∈ l -> before (l ++ [b]) a b.
Proof.
  intros Ha. apply list_elem_of_lookup in Ha as [i Hi].
  exists i, (length l). split_and!.
  - by apply lookup_app_l_Some.
  - by rewrite list_lookup_middle.
  - by eapply lookup_lt_Some.
Qed.

Lemma dependency_first_snoc (m : gmap string Spec) (l : list string) (x : string) :
  dependency_first m l -> (forall r, requires m x r -> r ∈ l) ->
  dependency_first m (l ++ [x]).
Proof.
  intros Hdf Hx P r HP Hreq.
  destruct (decide (P ∈ l)) as [Hin|Hnin].
  - apply before_app_l. by apply Hdf.
  - apply elem_of_app in HP as [?|HP]; [done|].
    apply list_elem_of_singleton in HP as ->. apply before_snoc. by apply Hx.
Qed.

(** In a list without repetition [before] is a strict order. *)
Lemma before_irrefl (l : list string) (a : string) :
  NoDup l -> ~ before l a a.
Proof.
  intros Hnd (i & j & Hi & Hj & Hlt).
  pose proof (NoDup_lookup _ _ _ _ Hnd Hi Hj). lia.
Qed.

Lemma before_trans (l : list string) (a b c : string) :
  NoDup l -> before l a b -> before l b c -> before l a c.
Proof.
  intros Hnd (i & j & Hi & Hj & Hlt) (j' & k & Hj' & Hk & Hlt').
  pose proof (NoDup_lookup _ _ _ _ Hnd Hj Hj'). subst j'.
  exists i, k. split_and!; [done..|lia].
Qed.

Lemma visitAll_nil (m : gmap string Spec) (fuel : nat) (st : visit) :
  visitAll m fuel [] st = Some (Ok st).
Proof. by destruct fuel. Qed.

Lemma visitAll_cons (m : gmap string Spec) (fuel : nat) (item : string)
    (rest : list string) (st : visit) :
  visitAll m fuel (item :: rest) st =
    if decide (item ∈ seen st) then visitAll m fuel rest st
    else
      match m !! item with
      | None => Some (Abort (NilPointer item))
      | Some spec =>
          match fuel with
          | O => None
          | S fuel' =>
              match
                visitAll m fuel' (Requires spec)
                  {| seen := {[item]} ∪ seen st; order := order st |}
              with
              | Some (Ok st') =>
                  visitAll m fuel rest
                    {| seen := seen st'; order := order st' ++ [item] |}
              | other => other
              end
          end
      end.
Proof. by destruct fuel. Qed.

Lemma visit_ok_push (m : gmap string Spec) (st : visit) (item : string) :
  visit_ok m st -> item ∈ dom m ->
  visit_ok m {| seen := {[item]} ∪ seen st; order := order st |}.
Proof.
  intros [Hd Ho Hn] Hi. split; cbn; [set_solver|set_solver|done].
Qed.

Lemma visitAll_run (m : gmap string Spec) (fuel : nat) :
  forall (items : list string) (st : visit),
  visit_ok m st -> (size (dom m) <= fuel + size (seen st))%nat ->
  exists r, visitAll m fuel items st = Some r /\
    match r with
    | Ok st' => visit_post m items st st'
    | Abort _ => ~ (closed m /\ forall i, i ∈ items -> i ∈ dom m)
    end.
Proof.
  induction fuel as [|fuel IHfuel];
    (induction items as [|item rest IHitems]; intros st Hok Hsz;
     [ rewrite visitAll_nil; exists (Ok st); split; [done|];
       split; [done|done|by exists []; rewrite app_nil_r|done|set_solver|tauto]
     | rewrite visitAll_cons; case_decide as Hseen;
       [ destruct (IHitems st Hok Hsz) as (r & Hr & Hpost); exists r;
         split; [done|]; destruct r as [st'|f];
         [ destruct Hpost as [P1 P2 P3 P4 P5 P6]; split; try done;
           [ intros i [->|Hi]%elem_of_cons; [set_solver|by apply P5]
           | intros Hac Hdf Hg; apply P6; [done|done|];
             intros g i Hpg Hi; apply Hg; [done|set_solver] ]
         | intros [Hc Hi]; apply Hpost; split; [done|set_solver] ]
       | destruct (m !! item) as [spec|] eqn:Hm;
         [ assert (item ∈ dom m) as Hdom by (apply elem_of_dom; eauto)
         | exists (Abort (NilPointer item)); split; [done|];
           intros [_ Hi]; apply not_elem_of_dom in Hm; apply Hm, Hi; set_solver ] ] ]).
  - (* no fuel left: every key is seen already *)
    exfalso. destruct Hok as [Hd _ _].
    assert (seen st ⊂ dom m) as Hsub by set_solver.
    apply subset_size in Hsub. lia.
  - set (st1 := {| seen := {[item]} ∪ seen st; order := order st |}).
    assert (item ∉ order st) as Hnord.
    { intros Hin. apply Hseen. by apply (order_seen _ _ Hok). }
    destruct (IHfuel (Requires spec) st1) as (r1 & Hr1 & Hpost1).
    { by apply visit_ok_push. }
    { cbn. rewrite size_union by set_solver. rewrite size_singleton. lia. }
    rewrite Hr1. destruct r1 as [st2|f]; cycle 1.
    { exists (Abort f). split; [done|]. intros [Hc Hi]. apply Hpost1.
      split; [done|]. intros i Hin. apply (Hc item). by exists spec. }
    destruct Hpost1 as [Q1 Q2 Q3 Q4 Q5 Q6].
    set (st3 := {| seen := seen st2; order := order st2 ++ [item] |}).
    assert (pending st2 item) as Hpitem.
    { apply Q4. split; cbn; [set_solver|done]. }
    assert (forall x, pending st3 x <-> pending st x) as Hpend3.
    { intros x. unfold pending in *. cbn. specialize (Q4 x). cbn in Q4.
      rewrite not_elem_of_app, list_elem_of_singleton.
      destruct (decide (x = item)) as [->|Hne]; [tauto|]. set_solver. }
    assert (visit_ok m st3) as Hok3.
    { destruct Q1 as [R1 R2 R3]. split; cbn.
      - done.
      - intros x [Hx|Hx]%elem_of_app; [by apply R2|].
        apply list_elem_of_singleton in Hx as ->. apply Hpitem.
      - apply NoDup_app. split_and!; [done| |apply NoDup_singleton].
        intros x Hx ->%list_elem_of_singleton. by apply Hpitem. }
    destruct (IHitems st3 Hok3) as (r3 & Hr3 & Hpost3).
    { cbn. assert (size (seen st) <= size (seen st2))%nat; [|lia].
      apply subseteq_size. set_solver. }
    exists r3. split; [done|]. destruct r3 as [st4|f]; cycle 1.
    { intros [Hc Hi]. apply Hpost3. split; [done|set_solver]. }
    destruct Hpost3 as [P1 P2 P3 P4 P5 P6]. split.
    + done.
    + cbn in *. set_solver.
    + destruct Q3 as [n1 Hn1], P3 as [n3 Hn3]. cbn in *.
      exists (n1 ++ [item] ++ n3). rewrite Hn3, Hn1. by rewrite <- !app_assoc.
    + intros x. rewrite P4. apply Hpend3.
    + intros i [->|Hi]%elem_of_cons; [|by apply P5].
      apply P2. cbn. apply Hpitem.
    + intros Hac Hdf Hg. apply P6; [done| |].
      * cbn. apply dependency_first_snoc.
        -- apply Q6; [done|done|]. intros g i [Hgs Hgo] Hi. cbn in *.
           assert (requires m item i) as Hreq by (by exists spec).
           destruct (decide (g = item)) as [->|Hne]; [by apply tc_once|].
           eapply tc_r; [|done]. apply Hg; [|set_solver].
           split; [set_solver|done].
        -- intros r Hreq. destruct (decide (r ∈ order st2)) as [|Hnin]; [done|].
           exfalso. destruct Hreq as (s & Hs & Hr). rewrite Hm in Hs.
           injection Hs as <-.
           assert (pending st2 r) as Hpr by (split; [by apply Q5|done]).
           apply Q4 in Hpr as [Hrs Hro]. cbn in *.
           assert (requires m item r) as Hreq by (by exists spec).
           destruct (decide (r = item)) as [->|Hne].
           ++ apply (Hac item). by apply tc_once.
           ++ apply (Hac item). eapply tc_l; [done|].
              apply Hg; [|set_solver]. split; [set_solver|done].
      * intros g i Hpg Hi. apply Hg; [by apply Hpend3|set_solver].
Qed.

(** What [topoSortWith] returns, for any order of delivery of the keys. *)
Lemma topoSortWith_run (m : gmap string Spec) (keys : list string) :
  keys ≡ₚ elements (dom m) ->
  exists r, topoSortWith keys m = Some r /\
    match r with
    | Ok l =>
        NoDup l /\ (forall x, x ∈ l <-> x ∈ dom m) /\
        (acyclic m -> dependency_first m l)
    | Abort _ => ~ closed m
    end.
Proof.
  intros Hkeys. unfold topoSortWith.
  set (st0 := {| seen := ∅; order := [] |}).
  assert (forall i, i ∈ sort_Strings keys <-> i ∈ dom m) as Hitems.
  { intros i. rewrite elem_of_sort_Strings, Hkeys. apply elem_of_elements. }
  destruct (visitAll_run m (size m) (sort_Strings keys) st0) as (r & -> & Hpost).
  { split; cbn; [set_solver|set_solver|constructor]. }
  { rewrite size_dom. lia. }
  destruct r as [st|f]; eexists; (split; [done|]).
  - destruct Hpost as [[R1 R2 R3] P2 P3 P4 P5 P6]. split_and!.
    + done.
    + intros x. split; [intros Hx; apply R1; by apply R2|].
      intros Hx. destruct (decide (x ∈ order st)) as [|Hn]; [done|].
      exfalso. assert (pending st x) as Hp.
      { split; [|done]. apply P5. by apply Hitems. }
      apply P4 in Hp as [Hp _]. cbn in Hp. set_solver.
    + intros Hac. apply P6; [done| |].
      * intros P r HP. by apply elem_of_nil in HP.
      * intros g i [Hg _]. cbn in Hg. set_solver.
  - intros Hc. apply Hpost. split; [done|]. intros i. apply Hitems.
Qed.

(** [topoSort] never runs out of fuel: the depth of the recursion is at most
    the number of keys. *)
Lemma topoSort_total (m : gmap string Spec) : exists r, topoSort m = Some r.
Proof.
  destruct (topoSortWith_run m (elements (dom m))) as (r & Hr & _); eauto.
Qed.

(** The order in which [range m] delivers the keys has no influence. *)
Lemma topoSortWith_iteration_order (m : gmap string Spec) (keys1 keys2 : list string) :
  keys1 ≡ₚ keys2 -> topoSortWith keys1 m = topoSortWith keys2 m.
Proof.
  intros Hp. unfold topoSortWith. by rewrite (sort_Strings_perm keys1 keys2).
Qed.

(** A cycle rules out every dependency-first order of the keys. *)
Lemma cyclic_not_dependency_first (m : gmap string Spec) (l : list string) :
  cyclic m -> NoDup l -> (forall x, x ∈ l <-> x ∈ dom m) ->
  ~ dependency_first m l.
Proof.
  intros [a Ha] Hnd Hl Hdf.
  assert (forall x y, tc (requires m) x y -> before l y x) as Hb.
  { intros x y Hxy.
    induction Hxy as [x y Hreq|x y z Hreq _ IH].
    - apply Hdf; [|done]. apply Hl. destruct Hreq as (s & Hs & _).
      apply elem_of_dom. eauto.
    - eapply before_trans; [done|done|]. apply Hdf; [|done].
      apply Hl. destruct Hreq as (s & Hs & _). apply elem_of_dom. eauto. }
  by apply (before_irrefl l a Hnd), Hb.
Qed.

(** Ways to check [closed] and [acyclic] on a given map. *)
Lemma closed_check (m : gmap string Spec) :
  map_Forall (fun _ s => Forall (fun b => is_Some (m !! b)) (Requires s)) m ->
  closed m.
Proof.
  intros Hall a b (s & Hs & Hb). apply elem_of_dom.
  specialize (Hall a s Hs). cbn in Hall.
  by eapply Forall_forall in Hall.
Qed.

Lemma acyclic_rank (m : gmap string Spec) (rank : string -> nat) :
  map_Forall (fun a s => Forall (fun b => (rank b < rank a)%nat) (Requires s)) m ->
  acyclic m.
Proof.
  intros Hall.
  assert (forall x y, tc (requires m) x y -> (rank y < rank x)%nat) as Hlt.
  { intros x y Hxy.
    assert (forall u v, requires m u v -> (rank v < rank u)%nat) as Hstep.
    { intros u v (s & Hs & Hv). specialize (Hall u s Hs). cbn in Hall.
      by eapply Forall_forall in Hall. }
    induction Hxy as [x y Hreq|x y z Hreq _ IH].
    - by apply Hstep.
    - apply Hstep in Hreq. lia. }
  intros a Ha. apply Hlt in Ha. lia.
Qed.

Lemma chainABC_closed : closed chainABC.
Proof. apply closed_check. apply (bool_decide_unpack _). by vm_compute. Qed.

Lemma chainABC_acyclic : acyclic chainABC.
Proof. apply (acyclic_rank _ first_byte). apply (bool_decide_unpack _). by vm_compute. Qed.

Lemma cycleAB_closed : closed cycleAB.
Proof. apply closed_check. apply (bool_decide_unpack _). by vm_compute. Qed.

Lemma cycleAB_cyclic : cyclic cycleAB.
Proof.
  exists "A". apply tc_l with "B"; [|apply tc_once].
  - exists (pkg "A" "" ["B"]). split; [done|set_solver].
  - exists (pkg "B" "" ["A"]). split; [done|set_solver].
Qed.

(** ** The passes over the build order *)

Section ForOrder.
Variable body : Spec -> result Spec.

(** A name that the loop does not visit keeps its spec. *)
Lemma forOrder_other (order : list string) (specs r : gmap string Spec) (p : string) :
  forOrder body order specs = Ok r -> p ∉ order -> r !! p = specs !! p.
Proof.
  revert specs. induction order as [|q rest IH]; intros specs Hr Hp; cbn in Hr.
  - by injection Hr as <-.
  - apply not_elem_of_cons in Hp as [Hne Hp].
    destruct (specs !! q) as [s|]; [|done].
    destruct (body s) as [s'|]; [|done]. cbn in Hr.
    rewrite (IH _ Hr Hp). by rewrite lookup_insert_ne.
Qed.

(** The spec that the loop leaves at a key is a function of the spec it
    found there: the other entries of the map have no influence. *)
Lemma forOrder_local (order : list string) (specs1 specs2 r1 r2 : gmap string Spec)
    (p : string) :
  specs1 !! p = specs2 !! p ->
  forOrder body order specs1 = Ok r1 -> forOrder body order specs2 = Ok r2 ->
  r1 !! p = r2 !! p.
Proof.
  revert specs1 specs2.
  induction order as [|q rest IH]; intros specs1 specs2 Hp H1 H2; cbn in H1, H2.
  - injection H1 as <-. by injection H2 as <-.
  - destruct (specs1 !! q) as [s1|] eqn:E1; [|done].
    destruct (specs2 !! q) as [s2|] eqn:E2; [|done].
    destruct (body s1) as [s1'|] eqn:B1; [|done].
    destruct (body s2) as [s2'|] eqn:B2; [|done]. cbn in H1, H2.
    apply (IH (<[q := s1']> specs1) (<[q := s2']> specs2)); [|done|done].
    destruct (decide (q = p)) as [->|Hne].
    + rewrite !lookup_insert_eq. congruence.
    + by rewrite !lookup_insert_ne.
Qed.

(** A body that succeeds on the specs that satisfy [Q], keeps [Q] and
    establishes [P]: the loop succeeds and every visited spec has both. *)
Lemma forOrder_spec (Q P : Spec -> Prop) (order : list string)
    (specs : gmap string Spec) :
  (forall s, Q s -> exists s', body s = Ok s' /\ Q s' /\ P s') ->
  (forall p, p ∈ order -> exists s, specs !! p = Some s /\ Q s) ->
  exists r, forOrder body order specs = Ok r /\
    forall p, p ∈ order -> exists s, r !! p = Some s /\ Q s /\ P s.
Proof.
  intros Hbody. revert specs.
  induction order as [|q rest IH]; intros specs Hin; cbn.
  - exists specs. split; [done|]. intros p Hp. by apply elem_of_nil in Hp.
  - destruct (Hin q) as (s & -> & Hq); [set_solver|].
    destruct (Hbody s Hq) as (s' & -> & Hq' & Hp'). cbn.
    destruct (IH (<[q := s']> specs)) as (r & Hr & Hpost).
    { intros p Hp. destruct (decide (q = p)) as [->|Hne].
      - exists s'. by rewrite lookup_insert_eq.
      - rewrite lookup_insert_ne by done. apply Hin. set_solver. }
    exists r. split; [done|]. intros p Hp.
    destruct (decide (p ∈ rest)) as [|Hnin]; [by apply Hpost|].
    apply elem_of_cons in Hp as [->|]; [|done].
    exists s'. rewrite (forOrder_other _ _ _ _ Hr Hnin).
    by rewrite lookup_insert_eq.
Qed.
End ForOrder.

(** ** Fingerprints *)

Lemma hex_EncodeToString_length (bs : list Z) :
  String.length (hex_EncodeToString bs) = (2 * length bs)%nat.
Proof. induction bs as [|b bs IH]; cbn; [done|]. rewrite IH. lia. Qed.

Lemma sha1_Sum_length (msg : list Z) : length (sha1_Sum msg) = 20%nat.
Proof. unfold sha1_Sum. by rewrite !length_app. Qed.

Lemma fingerprint_length (spec : Spec) : String.length (fingerprint spec) = 40%nat.
Proof.
  unfold fingerprint. by rewrite hex_EncodeToString_length, sha1_Sum_length.
Qed.

(** The digest reads four fields of the package itself, and nothing of the
    packages it requires. *)
Lemma fingerprint_own_fields (s1 s2 : Spec) :
  Recipe s1 = Recipe s2 -> Version s1 = Version s2 ->
  Package s1 = Package s2 -> CommitHash s1 = CommitHash s2 ->
  fingerprint s1 = fingerprint s2.
Proof. unfold fingerprint, hashInput. by intros -> -> -> ->. Qed.

Lemma annotate_local (cfg : Config) (order : list string)
    (specs1 specs2 r1 r2 : gmap string Spec) (p : string) :
  specs1 !! p = specs2 !! p ->
  annotate cfg order specs1 = Ok r1 -> annotate cfg order specs2 = Ok r2 ->
  r1 !! p = r2 !! p.
Proof.
  unfold annotate. intros Hp H1 H2.
  destruct (forOrder resolveCommit order specs1) as [a1|] eqn:A1; [|done].
  destruct (forOrder resolveCommit order specs2) as [a2|] eqn:A2; [|done].
  cbn in H1, H2.
  destruct (forOrder calcHash order a1) as [b1|] eqn:B1; [|done].
  destruct (forOrder calcHash order a2) as [b2|] eqn:B2; [|done].
  cbn in H1, H2.
  eapply forOrder_local; [|done|done].
  eapply forOrder_local; [|done|done].
  by eapply forOrder_local.
Qed.

Lemma substring_length (n : nat) (s : string) :
  (n <= String.length s)%nat -> String.length (String.substring 0 n s) = n.
Proof.
  revert s. induction n as [|n IH]; intros [|c s] Hn; cbn in *; try done; try lia.
  rewrite IH; [done|lia].
Qed.

Lemma annotate_spec (cfg : Config) (order : list string) (specs : gmap string Spec) :
  (forall p, p ∈ order -> p ∈ dom specs) ->
  exists r, annotate cfg order specs = Ok r /\
    forall p, p ∈ order -> exists s, r !! p = Some s /\ annotated cfg s.
Proof.
  intros Hdom. unfold annotate.
  destruct (forOrder_spec resolveCommit (fun _ => True) (fun _ => True) order specs)
    as (a & -> & Ha).
  { intros s _. eexists. by split. }
  { intros p Hp. apply Hdom, elem_of_dom in Hp as [s Hs]. eauto. }
  cbn.
  destruct (forOrder_spec calcHash (fun _ => True)
              (fun s => Hash s = fingerprint s) order a) as (b & -> & Hb).
  { intros s _. eexists. by split. }
  { intros p Hp. destruct (Ha p Hp) as (s & Hs & _). eauto. }
  cbn.
  destruct (forOrder_spec (assignPaths cfg) (fun s => Hash s = fingerprint s)
              (annotated cfg) order b) as (c & -> & Hc).
  { intros s Hs. unfold assignPaths, hashPrefix.
    rewrite Hs, fingerprint_length. cbn. eexists. split; [done|].
    split; [done|]. split; cbn; by rewrite ?Hs. }
  { intros p Hp. destruct (Hb p Hp) as (s & Hs & _ & Hh). eauto. }
  exists c. split; [done|]. intros p Hp.
  destruct (Hc p Hp) as (s & Hs & _ & Hann). eauto.
Qed.

(** ** The build loop *)

Lemma attempts_insert_eq (n : gmap string Z) (p : string) (v : Z) :
  attempts (<[p := v]> n) p = v.
Proof. unfold attempts. by rewrite lookup_insert_eq. Qed.

Lemma attempts_insert_ne (n : gmap string Z) (p q : string) (v : Z) :
  p ≠ q -> attempts (<[p := v]> n) q = attempts n q.
Proof. intros Hne. unfold attempts. by rewrite lookup_insert_ne. Qed.

Lemma occurrences_cons (p q : string) (build : list string) :
  occurrences p (q :: build) = (if decide (q = p) then 1 else 0) + occurrences p build.
Proof.
  unfold occurrences. rewrite filter_cons. case_decide; cbn [length]; lia.
Qed.

Lemma occurrences_nonneg (p : string) (build : list string) :
  0 <= occurrences p build.
Proof. unfold occurrences. lia. Qed.

Lemma occurrences_not_in (p : string) (build : list string) :
  p ∉ build -> occurrences p build = 0.
Proof.
  induction build as [|q build IH]; intros Hp; [done|].
  apply not_elem_of_cons in Hp as [Hne Hp].
  rewrite occurrences_cons, IH by done. by rewrite decide_False.
Qed.

Lemma occurrences_NoDup (p : string) (build : list string) :
  NoDup build -> p ∈ build -> occurrences p build = 1.
Proof.
  induction 1 as [|q build Hq _ IH]; intros Hp; [by apply elem_of_nil in Hp|].
  rewrite occurrences_cons. case_decide as Hqp.
  - subst. by rewrite occurrences_not_in.
  - apply elem_of_cons in Hp as [->|Hp]; [done|]. by rewrite IH.
Qed.

(** The counter after one more attempt at [p]. *)
Lemma attempts_next (n : gmap string Z) (p q : string) :
  attempts (<[p := attempts n p + 1]> n) q
  = attempts n q + (if decide (p = q) then 1 else 0).
Proof.
  case_decide as Hpq.
  - subst. by rewrite attempts_insert_eq.
  - rewrite attempts_insert_ne by done. lia.
Qed.

(** The guard of the loop: the attempt that takes the counter of [p] over
    the ceiling stops the run. *)
Lemma buildLoop_guard (flag p : string) (rest : list string) (st : build_state) :
  ceiling < attempts (niter st) p + 1 ->
  buildLoop flag (p :: rest) st = Abort (TooManyAttempts p).
Proof.
  intros Hc. cbn. rewrite attempts_insert_eq.
  destruct (_ >? _) eqn:E; [done|].
  rewrite Z.gtb_ltb in E. apply Z.ltb_ge in E. lia.
Qed.

(** A run that ends normally counted every visit, and no counter went over
    the ceiling. *)
Lemma buildLoop_counts (flag : string) (build : list string) (st st' : build_state) :
  buildLoop flag build st = Ok st' ->
  forall p, attempts (niter st') p = attempts (niter st) p + occurrences p build /\
            (p ∈ build -> attempts (niter st') p <= ceiling).
Proof.
  revert st. induction build as [|a rest IH]; intros st Hr p.
  - injection Hr as <-. unfold occurrences. cbn. split; [lia|].
    intros Hp. by apply elem_of_nil in Hp.
  - cbn in Hr. rewrite attempts_insert_eq in Hr.
    destruct (_ >? _) eqn:E; [done|].
    rewrite Z.gtb_ltb in E. apply Z.ltb_ge in E.
    destruct (bspecs st !! a); [|done]. case_decide; [done|].
    destruct (IH _ Hr p) as [Hc Hle]. cbn in Hc.
    rewrite attempts_next in Hc. rewrite occurrences_cons. split.
    + rewrite Hc. repeat case_decide; lia.
    + intros Hp. destruct (decide (p ∈ rest)) as [|Hn]; [auto|].
      apply elem_of_cons in Hp as [->|]; [|done].
      rewrite Hc, occurrences_not_in, decide_True by done. lia.
Qed.

(** Without remote store, a queue without repetition whose packages have
    attempts left is visited from its first to its last name. *)
Lemma buildLoop_once (build : list string) (st : build_state) :
  NoDup build ->
  (forall p, p ∈ build -> attempts (niter st) p < ceiling /\ p ∈ dom (bspecs st)) ->
  exists st', buildLoop "" build st = Ok st' /\ visited st' = visited st ++ build.
Proof.
  intros Hnd. revert st.
  induction Hnd as [|a rest Ha _ IH]; intros st Hpre.
  - exists st. by rewrite app_nil_r.
  - destruct (Hpre a) as [Hlt Hdom]; [set_solver|].
    apply elem_of_dom in Hdom as [spec Hspec].
    cbn. rewrite attempts_insert_eq.
    destruct (_ >? _) eqn:E.
    { rewrite Z.gtb_ltb in E. apply Z.ltb_lt in E. lia. }
    rewrite Hspec. rewrite decide_False by (by intros []).
    edestruct IH as (st' & -> & Hv).
    { intros p Hp. cbn. destruct (Hpre p) as [Hlt' Hdom']; [set_solver|].
      rewrite attempts_insert_ne by set_solver. split; [done|].
      rewrite dom_insert. set_solver. }
    exists st'. split; [done|]. rewrite Hv. cbn. by rewrite <- app_assoc.
Qed.

Lemma buildLoop_remote (flag p : string) (rest : list string) (st : build_state) :
  flag ≠ "" -> attempts (niter st) p < ceiling -> p ∈ dom (bspecs st) ->
  buildLoop flag (p :: rest) st = Abort NotImplemented.
Proof.
  intros Hf Hlt [spec Hspec]%elem_of_dom. cbn. rewrite attempts_insert_eq.
  destruct (_ >? _) eqn:E.
  { rewrite Z.gtb_ltb in E. apply Z.ltb_lt in E. lia. }
  rewrite Hspec. by rewrite decide_True.
Qed.

Lemma prefix_substring (n : nat) (s : string) :
  String.prefix (String.substring 0 n s) s = true.
Proof.
  revert s. induction n as [|n IH]; intros [|c s]; cbn; try done.
  destruct (ascii_dec c c); [apply IH|done].
Qed.

Example topoSort_chainABC : topoSort chainABC = Some (Ok ["A"; "B"; "C"]).
Proof. by vm_compute. Qed.

(** ** Paths of plain elements *)

Lemma append_cons (c : ascii) (s t : string) :
  String c s +:+ t = String c (s +:+ t).
Proof. reflexivity. Qed.

Lemma append_empty_r (s : string) : s +:+ "" = s.
Proof. induction s as [|c s IH]; [done|]. by rewrite append_cons, IH. Qed.

Lemma append_assoc (s1 s2 s3 : string) : (s1 +:+ s2) +:+ s3 = s1 +:+ (s2 +:+ s3).
Proof. induction s1 as [|c s1 IH]; [done|]. by rewrite !append_cons, IH. Qed.

Lemma path_elems_app (cur e rest : string) :
  no_slash e -> path_elems cur (e +:+ rest) = path_elems (cur +:+ e) rest.
Proof.
  unfold no_slash. revert cur.
  induction e as [|c e IH]; intros cur Hns.
  - by rewrite append_empty_r.
  - apply Forall_cons in Hns as [Hc Hns]. rewrite append_cons.
    change (path_elems cur (String c (e +:+ rest)))
      with (if Ascii.eqb c "/" then cur :: path_elems "" (e +:+ rest)
            else path_elems (cur +:+ String c "") (e +:+ rest)).
    destruct (Ascii.eqb c "/") eqn:E; [by apply Ascii.eqb_eq in E|].
    rewrite IH by done. by rewrite append_assoc.
Qed.

Lemma path_elems_concat (cur e : string) (es : list string) :
  Forall no_slash (e :: es) ->
  path_elems cur (String.concat "/" (e :: es)) = (cur +:+ e) :: es.
Proof.
  revert cur e. induction es as [|e2 es IH]; intros cur e Hall.
  - apply Forall_cons in Hall as [He _]. cbn.
    rewrite <- (append_empty_r e) at 1. by rewrite path_elems_app.
  - apply Forall_cons in Hall as [He Hall].
    change (String.concat "/" (e :: e2 :: es))
      with (e +:+ String "/" (String.concat "/" (e2 :: es))).
    rewrite path_elems_app by done.
    change (path_elems (cur +:+ e) (String "/" (String.concat "/" (e2 :: es))))
      with ((cur +:+ e) :: path_elems "" (String.concat "/" (e2 :: es))).
    by rewrite IH.
Qed.

Lemma clean_step_plain (rooted : bool) (out : list string) (e : string) :
  plain_elem e -> clean_step rooted out e = out ++ [e].
Proof.
  intros (H1 & H2 & H3 & _). unfold clean_step.
  rewrite decide_False by (by intros [|]). by rewrite decide_False.
Qed.

Lemma clean_steps_plain (rooted : bool) (out es : list string) :
  Forall plain_elem es -> foldl (clean_step rooted) out es = out ++ es.
Proof.
  intros Hall. revert out. induction Hall as [|e es He _ IH]; intros out; cbn.
  - by rewrite app_nil_r.
  - rewrite clean_step_plain by done. rewrite IH. by rewrite <- app_assoc.
Qed.

Lemma plain_no_slash (es : list string) :
  Forall plain_elem es -> Forall no_slash es.
Proof. intros Hall. eapply Forall_impl; [done|]. by intros e (_ & _ & _ & H). Qed.

Lemma plain_not_rooted (e rest : string) :
  plain_elem e -> String.prefix "/" (e +:+ rest) = false /\ e +:+ rest ≠ "".
Proof.
  intros (H1 & _ & _ & H4). destruct e as [|c e]; [done|].
  apply Forall_cons in H4 as [Hc _]. rewrite append_cons. split; [|done].
  change (String.prefix "/" (String c (e +:+ rest)))
    with (if ascii_dec "/"%char c then String.prefix "" (e +:+ rest) else false).
  destruct (ascii_dec "/"%char c); [by subst|done].
Qed.

Lemma concat_cons (e : string) (es : list string) :
  exists rest, String.concat "/" (e :: es) = e +:+ rest.
Proof.
  destruct es as [|e2 es]; [exists ""; cbn; by rewrite append_empty_r|].
  by eexists.
Qed.

(** [filepath.Join] of plain elements puts one separator between them. *)
Lemma Join_plain (e : string) (es : list string) :
  Forall plain_elem (e :: es) ->
  filepath_Join (e :: es) = String.concat "/" (e :: es).
Proof.
  intros Hall. pose proof Hall as [He Hes]%Forall_cons.
  cbn [filepath_Join]. rewrite decide_False by apply He.
  unfold filepath_Clean.
  destruct (concat_cons e es) as [rest Hrest].
  destruct (plain_not_rooted e rest He) as [Hroot Hne]. rewrite <- Hrest in *.
  rewrite decide_False by done. rewrite Hroot.
  rewrite path_elems_concat by by apply plain_no_slash.
  cbn [String.append]. rewrite clean_steps_plain by done.
  by rewrite decide_False.
Qed.

Lemma concat_app (es1 es2 : list string) :
  es1 ≠ [] -> es2 ≠ [] ->
  String.concat "/" (es1 ++ es2)
  = String.concat "/" es1 +:+ "/" +:+ String.concat "/" es2.
Proof.
  intros H1 H2. induction es1 as [|e es1 IH]; [done|].
  destruct es1 as [|e1 es1].
  - cbn [app]. destruct es2; done.
  - change (String.concat "/" ((e :: e1 :: es1) ++ es2))
      with (e +:+ "/" +:+ String.concat "/" ((e1 :: es1) ++ es2)).
    rewrite IH by done.
    change (String.concat "/" (e :: e1 :: es1))
      with (e +:+ "/" +:+ String.concat "/" (e1 :: es1)).
    by rewrite !append_assoc.
Qed.

(** The same under a clean absolute directory [/w1/.../wn]. *)
Lemma Join_plain_rooted (ws es : list string) :
  ws ≠ [] -> es ≠ [] -> Forall plain_elem ws -> Forall plain_elem es ->
  filepath_Join (("/" +:+ String.concat "/" ws) :: es)
  = ("/" +:+ String.concat "/" ws) +:+ "/" +:+ String.concat "/" es.
Proof.
  intros Hws Hes Hpw Hpe. cbn [filepath_Join].
  rewrite decide_False by done.
  assert (String.concat "/" (("/" +:+ String.concat "/" ws) :: es)
          = "/" +:+ String.concat "/" (ws ++ es)) as ->.
  { rewrite concat_app by done. destruct es; done. }
  unfold filepath_Clean. rewrite decide_False by done.
  change (String.prefix "/" ("/" +:+ String.concat "/" (ws ++ es)))
    with (String.prefix "" (String.concat "/" (ws ++ es))).
  assert (forall s, String.prefix "" s = true) as -> by (by intros []).
  change (path_elems "" ("/" +:+ String.concat "/" (ws ++ es)))
    with ("" :: path_elems "" (String.concat "/" (ws ++ es))).
  assert (Forall plain_elem (ws ++ es)) as Hall by (by apply Forall_app).
  destruct ws as [|w ws]; [done|]. cbn [app] in *.
  rewrite path_elems_concat by by apply plain_no_slash.
  cbn [foldl]. change (clean_step true [] "") with (@nil string).
  change ("" +:+ w) with w.
  apply Forall_cons in Hall as [Hw Hall].
  rewrite clean_step_plain, clean_steps_plain by done. cbn [app].
  change (w :: ws ++ es) with ((w :: ws) ++ es).
  by rewrite concat_app.
Qed.

(** ** The digits of a fingerprint *)

Lemma land_255_byte (a : Z) : 0 <= Z.land a 255 < 256.
Proof.
  change 255 with (Z.ones 8). rewrite Z.land_ones by lia.
  apply Z.mod_pos_bound. lia.
Qed.

Lemma sha1_Sum_bytes (msg : list Z) : Forall (fun b => 0 <= b < 256) (sha1_Sum msg).
Proof.
  unfold sha1_Sum, be32. cbn [map].
  repeat (apply Forall_app; split);
    repeat (apply Forall_cons; split; [apply land_255_byte|]); apply Forall_nil_2.
Qed.

Lemma hex_digit_char (d : Z) : 0 <= d < 16 -> hex_char (hex_digit d).
Proof.
  intros Hd.
  assert (d = 0 \/ d = 1 \/ d = 2 \/ d = 3 \/ d = 4 \/ d = 5 \/ d = 6 \/ d = 7 \/
          d = 8 \/ d = 9 \/ d = 10 \/ d = 11 \/ d = 12 \/ d = 13 \/ d = 14 \/ d = 15)
    as Hcases by lia.
  unfold hex_char.
  repeat (destruct Hcases as [->|Hcases]; [vm_compute; repeat constructor|]).
  subst. vm_compute. repeat constructor.
Qed.

Lemma hex_EncodeToString_chars (bs : list Z) :
  Forall (fun b => 0 <= b < 256) bs ->
  Forall hex_char (list_ascii_of_string (hex_EncodeToString bs)).
Proof.
  induction 1 as [|b bs Hb _ IH]; [constructor|].
  cbn [hex_EncodeToString list_ascii_of_string].
  apply Forall_cons. split; [|apply Forall_cons; split; [|done]].
  - apply hex_digit_char. rewrite Z.shiftr_div_pow2 by lia.
    change (2 ^ 4) with 16. split; [apply Z.div_pos; lia|].
    apply Z.div_lt_upper_bound; lia.
  - apply hex_digit_char. change 15 with (Z.ones 4).
    rewrite Z.land_ones by lia. apply Z.mod_pos_bound. lia.
Qed.

Lemma hex_char_plain (c : ascii) : hex_char c -> c ≠ "/"%char /\ c ≠ "."%char.
Proof.
  unfold hex_char. cbn [list_ascii_of_string]. intros Hc.
  repeat (apply elem_of_cons in Hc as [->|Hc]; [done|]).
  by apply elem_of_nil in Hc.
Qed.

Lemma fingerprint_chars (spec : Spec) :
  Forall hex_char (list_ascii_of_string (fingerprint spec)).
Proof. apply hex_EncodeToString_chars, sha1_Sum_bytes. Qed.

(** A fingerprint and its first two digits are plain path elements. *)
Lemma fingerprint_plain (spec : Spec) :
  plain_elem (fingerprint spec) /\
  plain_elem (String.substring 0 2 (fingerprint spec)).
Proof.
  pose proof (fingerprint_length spec) as Hlen.
  pose proof (fingerprint_chars spec) as Hch.
  destruct (fingerprint spec) as [|c1 [|c2 h]]; [done..|].
  cbn [list_ascii_of_string] in Hch.
  apply Forall_cons in Hch as [H1 Hch]. apply Forall_cons in Hch as [H2 Hch].
  apply hex_char_plain in H1 as [H1 H1'], H2 as [H2 H2']. split.
  - split_and!; try done.
    + intros [= -> ->]. done.
    + repeat (apply Forall_cons; split; [done|]).
      eapply Forall_impl; [done|]. by intros c [? _]%hex_char_plain.
  - assert (String.substring 0 2 (String c1 (String c2 h))
            = String c1 (String c2 "")) as -> by (by destruct h).
    split_and!; try done.
    + intros [= -> ->]. done.
    + by repeat (apply Forall_cons; split; [done|]).
Qed.

(** ** The resolution loop *)

Section ResolveFacts.
Context `{RegexpLib}.
Variable ReadFile : string -> option string.
Variable yaml_Unmarshal : string -> option Spec.
Variable cfg : Config.

(** A spec that the loop stores comes from a header whose package is not
    disabled. *)
Lemma loadSpec_stored (name : string) (s : Spec) :
  loadSpec ReadFile yaml_Unmarshal cfg name = Ok (Some s) ->
  exists hdr recipe,
    resolveSpec cfg hdr recipe = Ok s /\ Package s = Package hdr /\
    Package hdr ∉ disable cfg.
Proof.
  unfold loadSpec. intros Hl.
  destruct (ReadFile name) as [buf|]; [|done].
  destruct (at_index _ 0) as [hdr|]; cbn in Hl; [|done].
  destruct (at_index _ 1) as [recipe|]; cbn in Hl; [|done].
  destruct (yaml_Unmarshal hdr) as [spec|]; [|done].
  case_decide as Hd; [done|].
  destruct (resolveSpec cfg spec recipe) as [s'|] eqn:Hr; cbn in Hl; [|done].
  injection Hl as <-. exists spec, recipe. split_and!; [done| |done].
  unfold resolveSpec in Hr.
  destruct (fn cfg (Requires spec)); cbn in Hr; [|done].
  destruct (fn cfg (BuildRequires spec)); cbn in Hr; [|done].
  by injection Hr as <-.
Qed.

(** A property of the stored specs that every freshly stored one has is a
    property of the whole registry. *)
Lemma resolve_invariant (Q : string -> Spec -> Prop) (fuel : nat)
    (names : list string) (specs r : gmap string Spec) :
  (forall name s, loadSpec ReadFile yaml_Unmarshal cfg name = Ok (Some s) ->
                  Q (Package s) s) ->
  map_Forall Q specs ->
  resolve ReadFile yaml_Unmarshal cfg fuel names specs = Some (Ok r) ->
  map_Forall Q r.
Proof.
  intros Hload. revert names specs.
  induction fuel as [|fuel IH]; intros names specs Hall Hr; cbn in Hr; [done|].
  destruct names as [|name names]; [by injection Hr as <-|].
  destruct (specs !! name); [by eapply IH|].
  destruct (loadSpec _ _ _ name) as [[s|]|] eqn:Hl; [|by eapply IH|done].
  apply (IH (names ++ Requires s) (<[Package s := s]> specs)); [|done].
  apply map_Forall_insert_2; [by apply (Hload name)|done].
Qed.
End ResolveFacts.

(** * The claims *)

(** C1.  The fingerprint of a package does not take in the fingerprints of
    the packages it requires: with the recipe of [A] changed, the fingerprint
    of [A] changes and those of [B] (which requires [A]) and of [C] (which
    requires [A] and [B]) stay as they were. *)
Theorem fingerprint_ignores_dependencies :
  let cfg := exampleConfig ∅ in
  let before_change := chainABC_recipe "make A" in
  let after_change := chainABC_recipe "make -j8 A" in
  topoSort before_change = Some (Ok ["A"; "B"; "C"]) /\
  topoSort after_change = Some (Ok ["A"; "B"; "C"]) /\
  exists r1 r2,
    annotate cfg ["A"; "B"; "C"] before_change = Ok r1 /\
    annotate cfg ["A"; "B"; "C"] after_change = Ok r2 /\
    Hash <$> r1 !! "A" = Some "4fa08fcdef47c6c2f893490da97ce931891ff8e1" /\
    Hash <$> r2 !! "A" = Some "bfe9502fab4cdd142110564073ed52e226bf2982" /\
    Hash <$> r1 !! "B" = Hash <$> r2 !! "B" /\
    Hash <$> r1 !! "C" = Hash <$> r2 !! "C".
Proof.
  cbv zeta. split; [by vm_compute|]. split; [by vm_compute|].
  eexists _, _. split; [vm_compute; reflexivity|].
  split; [vm_compute; reflexivity|].
  by vm_compute.
Qed.

(** C2 as stated fails: two packages that require each other are sorted
    without any error. *)
Lemma topoSort_cycle_not_reported :
  cyclic cycleAB /\ topoSort cycleAB = Some (Ok ["B"; "A"]) /\
  ~ (exists f, topoSort cycleAB = Some (Abort f)).
Proof.
  split; [apply cycleAB_cyclic|].
  assert (topoSort cycleAB = Some (Ok ["B"; "A"])) as -> by (by vm_compute).
  split; [done|]. by intros [f Hf].
Qed.

(** C2.  [topoSort] has no test for cycles and no error for them: on every
    map that is closed under [Requires], with or without cycle, it ends and
    returns every key once; on a map with a cycle that order cannot be
    dependency-first. *)
Theorem topoSort_returns_every_key (m : gmap string Spec) :
  closed m ->
  exists l, topoSort m = Some (Ok l) /\ l ≡ₚ elements (dom m) /\
    (cyclic m -> ~ dependency_first m l).
Proof.
  intros Hc.
  destruct (topoSortWith_run m (elements (dom m))) as (r & Hr & Hpost); [done|].
  destruct r as [l|f]; [|done].
  destruct Hpost as (Hnd & Hl & _). exists l. split_and!; [done| |].
  - apply NoDup_Permutation; [done|apply NoDup_elements|].
    intros x. rewrite Hl. by rewrite elem_of_elements.
  - intros Hcyc. by apply cyclic_not_dependency_first.
Qed.

Lemma topoSort_returns_every_key_witness :
  exists l, topoSort cycleAB = Some (Ok l) /\ l ≡ₚ elements (dom cycleAB) /\
    (cyclic cycleAB -> ~ dependency_first cycleAB l).
Proof.
  apply topoSort_returns_every_key.
  apply closed_check. apply (bool_decide_unpack _). vm_compute. exact I.
Defined.

(** C3.  On a map that is closed under [Requires] and has no cycle,
    [topoSort] returns an order without repetition in which every name of the
    [Requires] list of a package stands at a smaller index than the package. *)
Theorem topoSort_dependency_first (m : gmap string Spec) :
  closed m -> acyclic m ->
  exists l, topoSort m = Some (Ok l) /\ NoDup l /\
    forall P r, P ∈ l -> requires m P r -> before l r P.
Proof.
  intros Hc Hac.
  destruct (topoSortWith_run m (elements (dom m))) as (r & Hr & Hpost); [done|].
  destruct r as [l|f]; [|done].
  destruct Hpost as (Hnd & _ & Hdf). exists l. split_and!; [done..|].
  by apply Hdf.
Qed.

Lemma topoSort_dependency_first_witness :
  exists l, topoSort chainABC = Some (Ok l) /\ NoDup l /\
    forall P r, P ∈ l -> requires chainABC P r -> before l r P.
Proof.
  apply topoSort_dependency_first;
    [apply closed_check|apply (acyclic_rank _ first_byte)];
    apply (bool_decide_unpack _); vm_compute; exact I.
Defined.

(** C4.  The sorter of the earlier version, [toposort], ranges over Go maps
    without sorting: on the same registry, two orders of delivery of the
    elements of [withPred] give two different build orders. *)
Theorem toposort_depends_on_range_order :
  toposort ["A"; "B"; "defaults-release"] id releaseAB
    = Some ["defaults-release"; "A"; "B"] /\
  toposort ["A"; "B"; "defaults-release"] (@rev string) releaseAB
    = Some ["defaults-release"; "B"; "A"].
Proof. split; by vm_compute. Qed.

(** The later sorter and the passes after it do not depend on the order in
    which [range m] delivers the keys. *)
Lemma pipeline_iteration_order (cfg : Config) (m : gmap string Spec)
    (keys1 keys2 : list string) :
  keys1 ≡ₚ keys2 ->
  (l ← topoSortWith keys1 m; Some (l ≫= fun l => annotate cfg l m))
  = (l ← topoSortWith keys2 m; Some (l ≫= fun l => annotate cfg l m)).
Proof. intros Hp. by rewrite (topoSortWith_iteration_order m keys1 keys2). Qed.

(** C5 as stated fails.  The defaults package is appended to the
    requirements after the disable set was applied: with [zlib] and [defaults-release] disabled,
    [zlib] is gone from the lists of [A] and [defaults-release] is still
    there; it is not resolved, and [topoSort] stops on the missing key. *)
Lemma disabled_defaults_still_required :
  let cfg := exampleConfig {["zlib"; "defaults-release"]} in
  exists specs,
    resolve (H := dotStar) exampleFiles exampleYaml cfg 3 ["A"] ∅ = Some (Ok specs) /\
    Requires <$> specs !! "A" = Some ["defaults-release"] /\
    BuildRequires <$> specs !! "A" = Some ["defaults-release"] /\
    specs !! "defaults-release" = None /\
    topoSort specs = Some (Abort (NilPointer "defaults-release")).
Proof.
  cbv zeta. eexists. split; [vm_compute; reflexivity|]. by vm_compute.
Qed.

(** C5.  A disabled package is never a key of the resolved registry and
    never in an order that [topoSort] returns for it; unless it is the
    defaults package of the configuration, it is in none of the requirement
    lists of the registry. *)
Theorem disable_propagation (R : RegexpLib) (ReadFile : string -> option string)
    (yaml_Unmarshal : string -> option Spec) (cfg : Config) (fuel : nat)
    (roots : list string) (specs : gmap string Spec) (D : string) :
  resolve ReadFile yaml_Unmarshal cfg fuel roots ∅ = Some (Ok specs) ->
  (D ∈ disable cfg) ->
  (D ∉ dom specs) /\
  (forall l, topoSort specs = Some (Ok l) -> D ∉ l) /\
  ((D ≠ defaultsName cfg) ->
   forall k s, specs !! k = Some s ->
     (D ∉ Requires s) /\ (D ∉ BuildRequires s) /\ (D ∉ RuntimeRequires s)).
Proof.
  intros Hr HD.
  pose (Q := fun (k : string) (s : Spec) =>
    (k ∉ disable cfg) /\
    ((D ≠ defaultsName cfg) ->
       (D ∉ Requires s) /\ (D ∉ BuildRequires s) /\ (D ∉ RuntimeRequires s))).
  assert (map_Forall Q specs) as Hall.
  { eapply resolve_invariant; [|apply map_Forall_empty|exact Hr].
    intros name s Hl.
    destruct (loadSpec_stored _ _ _ _ _ Hl) as (hdr & recipe & Hs & Hp & Hn).
    split; [by rewrite Hp|]. intros Hne.
    by eapply resolveSpec_drops_disabled. }
  assert (D ∉ dom specs) as Hdom.
  { intros [s Hs]%elem_of_dom. by destruct (Hall D s Hs). }
  split_and!; [done| |].
  - intros l Hl Hin.
    destruct (topoSortWith_run specs (elements (dom specs))) as (r & Hrun & Hpost);
      [done|].
    unfold topoSort in Hl. rewrite Hl in Hrun. injection Hrun as <-.
    destruct Hpost as (_ & Hkeys & _). by apply Hdom, Hkeys.
  - intros Hne k s Hs. destruct (Hall k s Hs) as [_ Hlists]. by apply Hlists.
Qed.

Lemma disable_propagation_witness :
  let cfg := exampleConfig {["zlib"; "defaults-release"]} in
  exists specs,
    resolve (H := dotStar) exampleFiles exampleYaml cfg 3 ["A"] ∅ = Some (Ok specs) /\
    ("zlib" ∈ disable cfg) /\ ("zlib" ∉ dom specs) /\
    forall k s, specs !! k = Some s -> "zlib" ∉ Requires s.
Proof.
  cbv zeta.
  destruct (resolve (H := dotStar) exampleFiles exampleYaml
              (exampleConfig {["zlib"; "defaults-release"]}) 3 ["A"] ∅)
    as [[specs|]|] eqn:Hr; [|by vm_compute in Hr..].
  exists specs. split; [done|].
  assert ("zlib" ∈ disable (exampleConfig {["zlib"; "defaults-release"]})) as HD.
  { cbn. set_solver. }
  destruct (disable_propagation dotStar exampleFiles exampleYaml _ 3 ["A"] specs
              "zlib" Hr HD) as (Hdom & _ & Hlists).
  split_and!; [done..|].
  intros k s Hs. by apply (Hlists ltac:(done) k s Hs).
Defined.

(** C6.  [niter] counts the attempts per package.  The attempt that takes a
    counter over the ceiling of 20 stops the run with [TooManyAttempts]; a
    queue that holds a package often enough for that never ends normally, and
    when no remote store is given and every name of the queue has a spec it
    ends in [TooManyAttempts].  The loop is a recursion on the queue, which
    is only consumed: it always ends. *)
Theorem buildLoop_ceiling (flag : string) (build : list string)
    (st : build_state) (p : string) :
  p ∈ build -> ceiling < attempts (niter st) p + occurrences p build ->
  (forall rest st', ceiling < attempts (niter st') p + 1 ->
     buildLoop flag (p :: rest) st' = Abort (TooManyAttempts p)) /\
  ~ is_Ok (buildLoop flag build st) /\
  (flag = "" -> (forall q, q ∈ build -> q ∈ dom (bspecs st)) ->
   exists q, q ∈ build /\ buildLoop flag build st = Abort (TooManyAttempts q)).
Proof.
  intros Hp Hc. split; [intros rest st'; apply buildLoop_guard|]. split.
  - intros [st' Hr]. destruct (buildLoop_counts _ _ _ _ Hr p) as [Heq Hle].
    specialize (Hle Hp). lia.
  - intros -> Hdom. revert st Hp Hc Hdom.
    induction build as [|a rest IH]; intros st Hp Hc Hdom.
    { by apply elem_of_nil in Hp. }
    destruct (decide (ceiling < attempts (niter st) a + 1)) as [Hg|Hg].
    { exists a. split; [set_solver|]. by apply buildLoop_guard. }
    assert (a ∈ dom (bspecs st)) as Ha by (apply Hdom; set_solver).
    apply elem_of_dom in Ha as [spec Hspec].
    rewrite occurrences_cons in Hc.
    assert (p ∈ rest) as Hrest.
    { apply elem_of_cons in Hp as [->|]; [|done].
      destruct (decide (a ∈ rest)) as [|Hn]; [done|].
      rewrite occurrences_not_in, decide_True in Hc by done. lia. }
    cbn. rewrite attempts_insert_eq.
    destruct (_ >? _) eqn:E.
    { rewrite Z.gtb_ltb in E. apply Z.ltb_lt in E. lia. }
    rewrite Hspec, decide_False by (by intros []).
    edestruct IH as (q & Hq & ->); [done| | |exists q; split; [set_solver|done]].
    + cbn. rewrite attempts_next. repeat case_decide; lia.
    + intros q Hq. cbn. rewrite dom_insert. set_solver.
Qed.

Lemma buildLoop_ceiling_witness :
  let build := replicate 21 "A" in
  let st := startBuild chainABC in
  "A" ∈ build /\ ceiling < attempts (niter st) "A" + occurrences "A" build /\
  ~ is_Ok (buildLoop "" build st) /\
  exists q, q ∈ build /\ buildLoop "" build st = Abort (TooManyAttempts q).
Proof.
  cbv zeta.
  assert ("A" ∈ replicate 21 "A") as Hin by (cbn; set_solver).
  assert (ceiling < attempts (niter (startBuild chainABC)) "A"
                    + occurrences "A" (replicate 21 "A")) as Hc by (by vm_compute).
  destruct (buildLoop_ceiling "" (replicate 21 "A") (startBuild chainABC) "A" Hin Hc)
    as (_ & Hno & Hq).
  split_and!; [done..|]. apply Hq; [done|].
  intros q Hq'. apply elem_of_replicate in Hq' as [-> _].
  apply elem_of_dom. by eexists.
Defined.

(** C7.  A token [name:pattern] stops [filterByArch]:
    [strings.SplitN(v, ":", 1)] has one element, and [s[1]] is out of
    range. *)
Theorem filterByArch_pattern_token (R : RegexpLib) (arch name pat : string)
    (rest : list string) :
  filterByArch arch ((name +:+ ":" +:+ pat) :: rest)
  = Abort (IndexOutOfRange 1 1).
Proof.
  unfold filterByArch. apply filterByArch_loop_colon, strings_Index_colon.
Qed.

(** The two paths as text, for an architecture and a package name that are
    plain path elements and a work directory [/w1/.../wn]. *)
Lemma annotated_text (cfg : Config) (s : Spec) (ws : list string) :
  annotated cfg s -> plain_elem (arch cfg) ->
  storePath (tar s)
  = "TARS/" +:+ arch cfg +:+ "/store/" +:+ String.substring 0 2 (Hash s)
      +:+ "/" +:+ Hash s /\
  (plain_elem (Package s) -> wdir cfg = "/" +:+ String.concat "/" ws ->
   ws ≠ [] -> Forall plain_elem ws ->
   linkDir (tar s) = wdir cfg +:+ "/TARS/" +:+ arch cfg +:+ "/" +:+ Package s).
Proof.
  intros [Hh Hs Hl] Harch.
  destruct (fingerprint_plain s) as [Hp1 Hp2]. rewrite <- Hh in Hp1, Hp2.
  assert (plain_elem "TARS") as HT.
  { split_and!; try done. by repeat (apply Forall_cons; split; [done|]). }
  assert (plain_elem "store") as HS.
  { split_and!; try done. by repeat (apply Forall_cons; split; [done|]). }
  split.
  - rewrite Hs, Join_plain; [done|].
    by repeat (apply Forall_cons; split; [done|]).
  - intros Hpkg Hw Hne Hws. rewrite Hl, Hw.
    rewrite Join_plain_rooted; [|done|done|done|].
    + cbn [String.concat]. by rewrite !append_assoc.
    + by repeat (apply Forall_cons; split; [done|]).
Qed.

(** C8.  After the passes every package of the order has the store path
    [TARS/<arch>/store/<shard>/<hash>], joined as [filepath.Join] does, where
    [<hash>] is its fingerprint, of 40 hexadecimal digits, and [<shard>] the
    first two of them; its link directory is [<wdir>/TARS/<arch>/<package>].
    For an architecture and a package name that are plain path elements the
    joined paths are these texts. *)
Theorem store_addressing (cfg : Config) (order : list string)
    (specs : gmap string Spec) :
  (forall p, p ∈ order -> p ∈ dom specs) ->
  exists r, annotate cfg order specs = Ok r /\
    forall p, p ∈ order ->
    exists s shard, r !! p = Some s /\
      Hash s = fingerprint s /\ String.length (Hash s) = 40%nat /\
      shard = String.substring 0 2 (Hash s) /\ String.length shard = 2%nat /\
      String.prefix shard (Hash s) = true /\
      storePath (tar s)
      = filepath_Join ["TARS"; arch cfg; "store"; shard; Hash s] /\
      linkDir (tar s)
      = filepath_Join [wdir cfg; "TARS"; arch cfg; Package s] /\
      (plain_elem (arch cfg) ->
       storePath (tar s)
       = "TARS/" +:+ arch cfg +:+ "/store/" +:+ shard +:+ "/" +:+ Hash s /\
       forall ws, plain_elem (Package s) ->
         wdir cfg = "/" +:+ String.concat "/" ws ->
         ws ≠ [] -> Forall plain_elem ws ->
         linkDir (tar s)
         = wdir cfg +:+ "/TARS/" +:+ arch cfg +:+ "/" +:+ Package s).
Proof.
  intros Hdom. destruct (annotate_spec cfg order specs Hdom) as (r & Hr & Hpost).
  exists r. split; [done|]. intros p Hp.
  destruct (Hpost p Hp) as (s & Hs & Hann). pose proof Hann as [H1 H2 H3].
  assert (String.length (Hash s) = 40%nat) as Hlen.
  { rewrite H1. apply fingerprint_length. }
  exists s, (String.substring 0 2 (Hash s)). split_and!; try done.
  - apply substring_length. lia.
  - apply prefix_substring.
  - intros Harch. split.
    + by destruct (annotated_text cfg s [] Hann Harch).
    + intros ws. by destruct (annotated_text cfg s ws Hann Harch).
Qed.

Lemma store_addressing_witness :
  let cfg := exampleConfig ∅ in
  (forall p, p ∈ ["A"; "B"; "C"] -> p ∈ dom chainABC) /\
  exists r, annotate cfg ["A"; "B"; "C"] chainABC = Ok r /\
    exists s, r !! "B" = Some s /\ String.length (Hash s) = 40%nat /\
      storePath (tar s)
      = filepath_Join ["TARS"; "slc7_x86-64"; "store"; String.substring 0 2 (Hash s);
                       Hash s] /\
      linkDir (tar s)
      = filepath_Join ["/home/alice/sw"; "TARS"; "slc7_x86-64"; Package s].
Proof.
  cbv zeta.
  assert (forall p, p ∈ ["A"; "B"; "C"] -> p ∈ dom chainABC) as Hdom.
  { intros p Hp. apply elem_of_dom.
    repeat (apply elem_of_cons in Hp as [->|Hp]; [by eexists|]).
    by apply elem_of_nil in Hp. }
  split; [exact Hdom|].
  destruct (store_addressing (exampleConfig ∅) ["A"; "B"; "C"] chainABC Hdom)
    as (r & Hr & Hpost).
  exists r. split; [exact Hr|].
  destruct (Hpost "B") as (s & shard & Hs & _ & Hlen & -> & _ & _ & Hsp & Hld & _).
  { set_solver. }
  exists s. split_and!; done.
Defined.

(** The paths of [B] in that run, as text. *)
Example store_addressing_B :
  exists r, annotate (exampleConfig ∅) ["A"; "B"; "C"] chainABC = Ok r /\
    (tar <$> r !! "B")
    = Some {| storePath :=
                "TARS/slc7_x86-64/store/8c/8cbe888a2ce28aeb6ded350093e48f3056bb4e4c";
              linksPath := "";
              hashDir := "/home/alice/sw/TARS/slc7_x86-64/store/8c/slc7_x86-64";
              linkDir := "/home/alice/sw/TARS/slc7_x86-64/B" |}.
Proof. eexists. split; [vm_compute; reflexivity|]. by vm_compute. Qed.

(** C9.  In a resolved [Spec] an empty tag is replaced by the version as the
    header gives it, and the version has every [/] replaced by [_]; the
    fingerprint reads that version. *)
Theorem resolveSpec_version_tag (R : RegexpLib) (cfg : Config)
    (spec s : Spec) (recipe : string) :
  resolveSpec cfg spec recipe = Ok s ->
  Tag s = (if decide (Tag spec = "") then Version spec else Tag spec) /\
  Version s = strings_Replace1 (Version spec) "/" "_" /\
  (forall i, String.get i (Version s) ≠ Some "/"%char) /\
  (forall i, String.get i (Version s)
             = (fun c => if Ascii.eqb c "/" then "_"%char else c)
                 <$> String.get i (Version spec)) /\
  hashInput s
  = fct recipe ++ fct (strings_Replace1 (Version spec) "/" "_")
      ++ fct (Package spec) ++ fct (CommitHash spec).
Proof.
  unfold resolveSpec. intros Hr.
  destruct (fn cfg (Requires spec)) as [req|]; cbn in Hr; [|done].
  destruct (fn cfg (BuildRequires spec)) as [breq|]; cbn in Hr; [|done].
  injection Hr as <-. cbn. split_and!; try done.
  - intros i. by apply Replace1_gone.
  - intros i. apply Replace1_get.
Qed.

Lemma resolveSpec_version_tag_witness :
  let cfg := exampleConfig {["zlib-dev"]} in
  resolveSpec (H := dotStar) cfg rootHeader "make ROOT" = Ok rootResolved /\
  Tag rootResolved = "v5-34/30" /\ Version rootResolved = "v5-34_30".
Proof.
  cbv zeta.
  assert (resolveSpec (H := dotStar) (exampleConfig {["zlib-dev"]}) rootHeader
            "make ROOT" = Ok rootResolved) as Hr by (by vm_compute).
  split; [exact Hr|].
  destruct (resolveSpec_version_tag dotStar _ _ _ _ Hr) as (Ht & Hv & _).
  split; [exact Ht|exact Hv].
Defined.

(** C10 as stated fails: with a remote store given, the loop stops in its
    first turn and the other packages of the order are not visited. *)
Lemma buildLoop_remote_store_stops :
  topoSort chainABC = Some (Ok ["A"; "B"; "C"]) /\
  buildLoop "alibuild@store" ["A"; "B"; "C"] (startBuild chainABC)
  = Abort NotImplemented.
Proof. split; by vm_compute. Qed.

(** C10.  The queue is the order of [topoSort] and is only consumed.
    Without remote store the loop ends normally after one turn per package:
    it visits the packages of the order, each once and in that order.  With
    a remote store its first turn stops the run. *)
Theorem buildLoop_visits_order (cfg : Config) (flag : string)
    (m specs : gmap string Spec) (l : list string) :
  topoSort m = Some (Ok l) -> annotate cfg l m = Ok specs ->
  (flag = "" ->
   exists st, buildLoop flag l (startBuild specs) = Ok st /\
     visited st = l /\ NoDup l /\ length (visited st) = size m /\
     forall p, p ∈ l -> attempts (niter st) p = 1) /\
  (flag ≠ "" -> l ≠ [] ->
   buildLoop flag l (startBuild specs) = Abort NotImplemented).
Proof.
  intros Hsort Hann.
  destruct (topoSortWith_run m (elements (dom m))) as (r & Hr & Hpost); [done|].
  unfold topoSort in Hsort. rewrite Hsort in Hr. injection Hr as <-.
  destruct Hpost as (Hnd & Hl & _).
  destruct (annotate_spec cfg l m) as (specs' & Hann' & Hspecs).
  { intros p. apply Hl. }
  rewrite Hann in Hann'. injection Hann' as <-.
  assert (forall p, p ∈ l -> p ∈ dom specs) as Hdom.
  { intros p Hp. destruct (Hspecs p Hp) as (s & Hs & _).
    apply elem_of_dom. eauto. }
  split.
  - intros ->.
    destruct (buildLoop_once l (startBuild specs) Hnd) as (st & Hst & Hv).
    { intros p Hp. split; [by vm_compute|by apply Hdom]. }
    exists st. cbn in Hv. split_and!; try done.
    + rewrite Hv. rewrite <- size_dom.
      assert (l ≡ₚ elements (dom m)) as ->; [|done].
      apply NoDup_Permutation; [done|apply NoDup_elements|].
      intros x. rewrite Hl. by rewrite elem_of_elements.
    + intros p Hp. destruct (buildLoop_counts _ _ _ _ Hst p) as [-> _].
      by rewrite occurrences_NoDup.
  - intros Hflag Hne. destruct l as [|p rest]; [done|].
    apply buildLoop_remote; [done|by vm_compute|apply Hdom; set_solver].
Qed.

Lemma buildLoop_visits_order_witness :
  let cfg := exampleConfig ∅ in
  exists specs,
    topoSort chainABC = Some (Ok ["A"; "B"; "C"]) /\
    annotate cfg ["A"; "B"; "C"] chainABC = Ok specs /\
    exists st, buildLoop "" ["A"; "B"; "C"] (startBuild specs) = Ok st /\
      visited st = ["A"; "B"; "C"].
Proof.
  cbv zeta.
  assert (topoSort chainABC = Some (Ok ["A"; "B"; "C"])) as Hsort by (by vm_compute).
  destruct (annotate (exampleConfig ∅) ["A"; "B"; "C"] chainABC) as [specs|] eqn:Hann;
    [|by vm_compute in Hann].
  exists specs. split; [done|]. split; [done|].
  destruct (buildLoop_visits_order (exampleConfig ∅) "" chainABC specs
              ["A"; "B"; "C"] Hsort Hann) as [Hrun _].
  destruct (Hrun eq_refl) as (st & Hst & Hv & _). eauto.
Defined.

